(** * Voice-command matching core of BrailleWalk

    A shallow embedding of [src/utils/fuzzyMatch.ts] and
    [src/utils/commandMatcher.ts].

    Modelling choices:
    - a JavaScript string is a [list ascii] (the catalogs are ASCII);
      [toLowerCase], [trim] and [split(/\s+/)] are written out over it;
    - a JavaScript number used as a score or threshold is a rational [Q]:
      the scores are quotients [1 - d / m] of small integers and are
      modelled exactly;
    - [Array.prototype.sort] with the comparator [(a, b) => b.score - a.score]
      is the stable descending sort of ES2019, written as insertion sort;
    - [null] is [None]. *)

From Stdlib Require Import Ascii String List Bool Arith Lia ZArith QArith Lqa
  Permutation Sorted.
Import ListNotations.

Open Scope nat_scope.

(* ------------------------------------------------------------------ *)
(** ** Characters and strings *)

Definition str := list ascii.

(** String literal to [str]. *)
Definition S_ (s : string) : str := list_ascii_of_string s.

(** JavaScript [\s] restricted to ASCII: tab, LF, VT, FF, CR, space. *)
Definition is_ws (c : ascii) : bool :=
  let n := nat_of_ascii c in
  ((9 <=? n) && (n <=? 13))%nat || (n =? 32)%nat.

(** JavaScript [\w]: [A-Za-z0-9_]. *)
Definition is_word (c : ascii) : bool :=
  let n := nat_of_ascii c in
  ((65 <=? n) && (n <=? 90))%nat || ((97 <=? n) && (n <=? 122))%nat
  || ((48 <=? n) && (n <=? 57))%nat || (n =? 95)%nat.

(** [toLowerCase] on one ASCII character. *)
Definition lower_char (c : ascii) : ascii :=
  let n := nat_of_ascii c in
  if ((65 <=? n) && (n <=? 90))%nat then ascii_of_nat (n + 32) else c.

Definition toLowerCase (s : str) : str := map lower_char s.

Fixpoint drop_ws (s : str) : str :=
  match s with
  | [] => []
  | c :: s' => if is_ws c then drop_ws s' else s
  end.

(** [String.prototype.trim]. *)
Definition trim (s : str) : str := rev (drop_ws (rev (drop_ws s))).

(** [s.split(/\s+/)]: maximal runs of whitespace separate the pieces; a
    leading or trailing run yields an empty piece, as in JavaScript. *)
Fixpoint split_ws_aux (s : str) (cur : str) (in_ws : bool) : list str :=
  match s with
  | [] => [rev cur]
  | c :: s' =>
      if is_ws c then
        if in_ws then split_ws_aux s' cur true
        else rev cur :: split_ws_aux s' [] true
      else split_ws_aux s' (c :: cur) false
  end.

Definition split_ws (s : str) : list str := split_ws_aux s [] false.

(** [words.join(' ')]. *)
Fixpoint join_space (ws : list str) : str :=
  match ws with
  | [] => []
  | [w] => w
  | w :: ws' => w ++ " "%char :: join_space ws'
  end.

Definition str_eqb (a b : str) : bool :=
  if list_eq_dec ascii_dec a b then true else false.

Fixpoint prefixb (p s : str) : bool :=
  match p, s with
  | [], _ => true
  | c :: p', d :: s' => Ascii.eqb c d && prefixb p' s'
  | _ :: _, [] => false
  end.

(** [s.includes(p)]. *)
Fixpoint includes (s p : str) : bool :=
  prefixb p s || match s with [] => false | _ :: s' => includes s' p end.

(** [arr.includes(w)] on an array of strings. *)
Definition mem (w : str) (l : list str) : bool := existsb (str_eqb w) l.

(* ------------------------------------------------------------------ *)
(** ** [levenshteinDistance] (fuzzyMatch.ts, lines 10-40)

    The matrix is built row by row.  Row [0] is [0, 1, ..., len2]; row [i]
    starts with [i], and entry [j] is
    [min(matrix[i-1][j] + 1, matrix[i][j-1] + 1, matrix[i-1][j-1] + cost)]. *)

Definition cost (x y : ascii) : nat := if Ascii.eqb x y then 0 else 1.

(** [fill x left prev b]: the entries [1..len2] of the new row, where [x] is
    [str1[i-1]], [left] is the entry just computed ([matrix[i][j-1]]) and
    [prev] is the previous row from column [j-1] on. *)
Fixpoint fill (x : ascii) (left : nat) (prev : list nat) (b : str) : list nat :=
  match prev, b with
  | pdiag :: ((pup :: _) as prest), y :: b' =>
      let v := Nat.min (Nat.min (pup + 1) (left + 1)) (pdiag + cost x y) in
      v :: fill x v prest b'
  | _, _ => []
  end.

Fixpoint rows (a : str) (i : nat) (b : str) (row : list nat) : list nat :=
  match a with
  | [] => row
  | x :: a' => rows a' (S i) b (S i :: fill x (S i) row b)
  end.

Definition levenshteinDistance (str1 str2 : str) : nat :=
  last (rows str1 0 str2 (seq 0 (length str2 + 1))) 0.

(** ** [similarityScore] (fuzzyMatch.ts, lines 45-51) *)
Definition similarityScore (str1 str2 : str) : Q :=
  let maxLength := Nat.max (length str1) (length str2) in
  if maxLength =? 0 then 1%Q
  else
    let distance := levenshteinDistance (toLowerCase str1) (toLowerCase str2) in
    (1 - inject_Z (Z.of_nat distance) / inject_Z (Z.of_nat maxLength))%Q.

(* ------------------------------------------------------------------ *)
(** ** Edit distance on reversed prefixes

    [lev s t] is the edit distance of the strings [rev s] and [rev t]: the
    heads are the last characters, so the recursion follows the matrix. *)
Fixpoint lev (s t : str) : nat :=
  match s with
  | [] => length t
  | x :: s' =>
      (fix lev_x (t : str) : nat :=
         match t with
         | [] => length s
         | y :: t' =>
             Nat.min (Nat.min (lev s' t + 1) (lev_x t' + 1)) (lev s' t' + cost x y)
         end) t
  end.

(** The row of the matrix for a fixed row string [s], from column
    [length acc] on, as [lev] values. *)
Fixpoint rowspec (s acc : str) (b : str) : list nat :=
  lev s acc :: match b with [] => [] | y :: b' => rowspec s (y :: acc) b' end.

(* ------------------------------------------------------------------ *)
(** ** Scores *)

(** Strict comparison of scores. *)
Definition Qltb (a b : Q) : bool := negb (Qle_bool b a).

(** [Math.max(a, b)]. *)
Definition js_max (a b : Q) : Q := if Qltb a b then b else a.

(* ------------------------------------------------------------------ *)
(** ** [normalizePhonetic] (fuzzyMatch.ts, lines 115-144)

    Each entry of [replacements] is a global [String.prototype.replace]
    over the result of the previous one. *)

(** [/\bc/g -> rep] for a word character [c]: [c] matches at a word
    boundary when the character before it (in the string being rewritten)
    is not a word character, or when it is the first one. *)
Fixpoint replace_initial (c : ascii) (rep : str) (prev_word : bool) (s : str) : str :=
  match s with
  | [] => []
  | x :: s' =>
      (if Ascii.eqb x c && negb prev_word then rep else [x])
        ++ replace_initial c rep (is_word x) s'
  end.

(** [/th/g -> '[thd]'], scanning left to right without overlap. *)
Fixpoint replace_th (s : str) : str :=
  match s with
  | x :: ((y :: s'') as s') =>
      if Ascii.eqb x "t" && Ascii.eqb y "h" then S_ "[thd]" ++ replace_th s''
      else x :: replace_th s'
  | _ => s
  end.

(** [/c+/g -> rep]: every maximal run of [c] becomes one [rep]. *)
Fixpoint replace_run (c : ascii) (rep : str) (in_run : bool) (s : str) : str :=
  match s with
  | [] => []
  | x :: s' =>
      if Ascii.eqb x c then (if in_run then [] else rep) ++ replace_run c rep true s'
      else x :: replace_run c rep false s'
  end.

Definition normalizePhonetic (text : str) : str :=
  let normalized := toLowerCase text in
  let normalized := replace_initial "r" (S_ "[rl]") false normalized in
  let normalized := replace_initial "l" (S_ "[rl]") false normalized in
  let normalized := replace_th normalized in
  let normalized := replace_initial "v" (S_ "[vb]") false normalized in
  let normalized := replace_initial "b" (S_ "[vb]") false normalized in
  let normalized := replace_run "a" (S_ "a+") false normalized in
  let normalized := replace_run "e" (S_ "e+") false normalized in
  let normalized := replace_run "i" (S_ "i+") false normalized in
  let normalized := replace_run "o" (S_ "o+") false normalized in
  replace_run "u" (S_ "u+") false normalized.

(* ------------------------------------------------------------------ *)
(** ** [fuzzyMatchPhonetic] (fuzzyMatch.ts, lines 149-169) *)

Record PhoneticMatch := { match_ : bool; score : Q }.

Definition fuzzyMatchPhonetic (input target : str) (threshold : Q) : PhoneticMatch :=
  let exactScore := similarityScore input target in
  if Qle_bool threshold exactScore then {| match_ := true; score := exactScore |}
  else
    let phoneticInput := normalizePhonetic input in
    let phoneticTarget := normalizePhonetic target in
    let phoneticScore := similarityScore phoneticInput phoneticTarget in
    {| match_ := Qle_bool threshold phoneticScore;
       score := js_max exactScore phoneticScore |}.

(* ------------------------------------------------------------------ *)
(** ** Stable descending sort by score

    [arr.sort((a, b) => b.score - a.score)]: an element goes before every
    element of lower or equal score that follows it in the input. *)

Record Scored := { item : str; s_score : Q }.

Fixpoint insert_desc (x : Scored) (l : list Scored) : list Scored :=
  match l with
  | [] => [x]
  | y :: l' => if Qle_bool (s_score y) (s_score x) then x :: l else y :: insert_desc x l'
  end.

Fixpoint sort_desc (l : list Scored) : list Scored :=
  match l with
  | [] => []
  | x :: l' => insert_desc x (sort_desc l')
  end.

(* ------------------------------------------------------------------ *)
(** ** [findBestMatch] (fuzzyMatch.ts, lines 57-88) *)

Record BestMatch := { bm_match : option str; bm_score : Q; allMatches : list Scored }.

Definition score_options (normalizedInput : str) (options : list str) : list Scored :=
  map (fun option => {| item := option;
                        s_score := similarityScore normalizedInput (toLowerCase option) |})
    options.

Definition findBestMatch (input : str) (options : list str) (threshold : Q) : BestMatch :=
  let normalizedInput := trim (toLowerCase input) in
  let scores := sort_desc (score_options normalizedInput options) in
  let above := filter (fun s => Qle_bool threshold (s_score s)) scores in
  match scores with
  | bestMatch :: _ =>
      if Qle_bool threshold (s_score bestMatch) then
        {| bm_match := Some (item bestMatch); bm_score := s_score bestMatch; allMatches := above |}
      else {| bm_match := None; bm_score := 0; allMatches := above |}
  | [] => {| bm_match := None; bm_score := 0; allMatches := above |}
  end.

(* ------------------------------------------------------------------ *)
(** ** [containsFuzzy] (fuzzyMatch.ts, lines 93-110) *)

Record FuzzyContains := { found : bool; matchedWord : option str; cf_score : Q }.

(** The inner loop over the targets, for one input word. *)
Fixpoint scan_targets (word : str) (targets : list str) (threshold : Q) : option (str * Q) :=
  match targets with
  | [] => None
  | target :: rest =>
      let score := similarityScore word (toLowerCase target) in
      if Qle_bool threshold score then Some (target, score)
      else scan_targets word rest threshold
  end.

(** The outer loop over the input words. *)
Fixpoint scan_words (words : list str) (targets : list str) (threshold : Q) : option (str * Q) :=
  match words with
  | [] => None
  | word :: rest =>
      match scan_targets word targets threshold with
      | Some hit => Some hit
      | None => scan_words rest targets threshold
      end
  end.

Definition containsFuzzy (input : str) (targets : list str) (threshold : Q) : FuzzyContains :=
  let words := split_ws (toLowerCase input) in
  match scan_words words targets threshold with
  | Some (target, score) => {| found := true; matchedWord := Some target; cf_score := score |}
  | None => {| found := false; matchedWord := None; cf_score := 0 |}
  end.

(* ------------------------------------------------------------------ *)
(** ** Command catalogs (commandMatcher.ts, lines 3-131) *)

Record CommandMatch := { command_ : str; confidence : Q; matchedPhrase : str }.

Record CommandDefinition := { command : str; aliases : list str; description : str }.

Definition cmd_def (c : string) (als : list string) (d : string) : CommandDefinition :=
  {| command := S_ c; aliases := map S_ als; description := S_ d |}.

Definition GLOBAL_COMMANDS : list CommandDefinition := [
  cmd_def "navigate" ["navigate"; "navigation"; "nav"; "walk"; "go"; "move";
    "start walking"; "guide me"; "direction"; "directions"] "Start navigation mode";
  cmd_def "scan" ["scan"; "camera"; "take picture"; "photo"; "capture"; "look";
    "see"; "identify"; "recognize"; "read"] "Start scan mode";
  cmd_def "emergency" ["emergency"; "help"; "call"; "sos"; "urgent"; "need help";
    "assistance"; "caregiver"; "contact"] "Open emergency contacts";
  cmd_def "repeat" ["repeat"; "again"; "say again"; "instructions"; "what";
    "pardon"; "sorry"] "Repeat instructions";
  cmd_def "back" ["back"; "go back"; "return"; "previous"; "exit"; "quit";
    "close"; "stop"] "Go back or exit"
]%string.

Definition NAVIGATION_COMMANDS : list CommandDefinition := [
  cmd_def "pause" ["pause"; "stop"; "wait"; "hold"; "hold on"] "Pause navigation";
  cmd_def "resume" ["resume"; "continue"; "go"; "start"; "proceed"; "keep going"]
    "Resume navigation";
  cmd_def "repeat" ["repeat"; "again"; "say again"; "what"] "Repeat last instruction";
  cmd_def "exit" ["exit"; "quit"; "stop"; "end"; "finish"; "back"; "go back"]
    "Exit navigation"
]%string.

Definition SCAN_COMMANDS : list CommandDefinition := [
  cmd_def "scan" ["scan"; "capture"; "take"; "photo"; "picture"; "now"] "Take a scan";
  cmd_def "text" ["text"; "read"; "ocr"; "words"; "letters"; "reading"] "Switch to text mode";
  cmd_def "object" ["object"; "thing"; "item"; "identify"; "what is this"; "recognize"]
    "Switch to object mode";
  cmd_def "barcode" ["barcode"; "qr"; "qr code"; "code"; "product"] "Switch to barcode mode";
  cmd_def "auto" ["auto"; "automatic"; "continuous"; "auto scan"; "keep scanning"]
    "Toggle auto scan";
  cmd_def "manual" ["manual"; "stop auto"; "manual mode"; "one by one"]
    "Switch to manual mode";
  cmd_def "pause" ["pause"; "stop"; "wait"; "hold"; "hold on"] "Pause scanning";
  cmd_def "resume" ["resume"; "continue"; "go"; "start"; "proceed"; "keep going"]
    "Resume scanning";
  cmd_def "exit" ["exit"; "quit"; "back"; "close"; "done"; "finish"] "Exit scan mode"
]%string.

Definition EMERGENCY_COMMANDS : list CommandDefinition := [
  cmd_def "call_first" ["call first"; "first contact"; "primary"; "call primary";
    "nearest"; "closest"] "Call first contact";
  cmd_def "end_call" ["end"; "end call"; "hang up"; "stop"; "finish"; "disconnect"]
    "End current call";
  cmd_def "back" ["back"; "go back"; "return"; "exit"; "cancel"] "Go back to dashboard"
]%string.

(* ------------------------------------------------------------------ *)
(** ** [matchCommand] (commandMatcher.ts, lines 133-215) *)

Definition hit (cmd : CommandDefinition) (conf : Q) (alias : str) : CommandMatch :=
  {| command_ := command cmd; confidence := conf; matchedPhrase := alias |}.

(** Stage 1, exact match: the first alias (catalog order, then alias order)
    equal to the normalized input. *)
Fixpoint exact_aliases (ni : str) (cmd : CommandDefinition) (als : list str)
  : option CommandMatch :=
  match als with
  | [] => None
  | alias :: rest =>
      if str_eqb ni (toLowerCase alias) then Some (hit cmd 1 alias)
      else exact_aliases ni cmd rest
  end.

Fixpoint exact_stage (ni : str) (cmds : list CommandDefinition) : option CommandMatch :=
  match cmds with
  | [] => None
  | cmd :: rest =>
      match exact_aliases ni cmd (aliases cmd) with
      | Some m => Some m
      | None => exact_stage ni rest
      end
  end.

(** Stage 2, the test of one alias: substring in either direction and a
    word-overlap ratio above one half. *)
Definition contains_hit (ni alias : str) : bool :=
  let la := toLowerCase alias in
  (includes ni la || includes la ni) &&
  (let words := split_ws ni in
   let aliasWords := split_ws la in
   let matchRatio :=
     (inject_Z (Z.of_nat (length (filter (fun w => mem w aliasWords) words)))
      / inject_Z (Z.of_nat (Nat.max (length words) (length aliasWords))))%Q in
   Qltb (1 # 2) matchRatio).

Fixpoint contains_aliases (ni : str) (cmd : CommandDefinition) (als : list str)
  : option CommandMatch :=
  match als with
  | [] => None
  | alias :: rest =>
      if contains_hit ni alias then Some (hit cmd (9 # 10) alias)
      else contains_aliases ni cmd rest
  end.

Fixpoint contains_stage (ni : str) (cmds : list CommandDefinition) : option CommandMatch :=
  match cmds with
  | [] => None
  | cmd :: rest =>
      match contains_aliases ni cmd (aliases cmd) with
      | Some m => Some m
      | None => contains_stage ni rest
      end
  end.

(** The tracker [(bestMatch, bestScore)] shared by stages 3 and 4. *)
Definition Best := (option CommandMatch * Q)%type.

(** Stage 3, phonetic fuzzy match over every (command, alias) pair. *)
Fixpoint fuzzy_aliases (ni : str) (cmd : CommandDefinition) (als : list str)
  (threshold : Q) (st : Best) : Best :=
  match als with
  | [] => st
  | alias :: rest =>
      let result := fuzzyMatchPhonetic ni alias threshold in
      let st' := if match_ result && Qltb (snd st) (score result)
                 then (Some (hit cmd (score result) alias), score result) else st in
      fuzzy_aliases ni cmd rest threshold st'
  end.

Fixpoint fuzzy_stage (ni : str) (cmds : list CommandDefinition) (threshold : Q)
  (st : Best) : Best :=
  match cmds with
  | [] => st
  | cmd :: rest => fuzzy_stage ni rest threshold (fuzzy_aliases ni cmd (aliases cmd) threshold st)
  end.

(** Stage 4, word-by-word fuzzy match: for every command, alias and input
    word, [containsFuzzy(inputWord, aliasWords, threshold)]. *)
Fixpoint word_inputs (cmd : CommandDefinition) (alias : str) (aliasWords : list str)
  (inputWords : list str) (threshold : Q) (st : Best) : Best :=
  match inputWords with
  | [] => st
  | inputWord :: rest =>
      let wordMatch := containsFuzzy inputWord aliasWords threshold in
      let st' := if found wordMatch && Qltb (snd st) (cf_score wordMatch)
                 then (Some (hit cmd (cf_score wordMatch) alias), cf_score wordMatch) else st in
      word_inputs cmd alias aliasWords rest threshold st'
  end.

Fixpoint word_aliases (inputWords : list str) (cmd : CommandDefinition) (als : list str)
  (threshold : Q) (st : Best) : Best :=
  match als with
  | [] => st
  | alias :: rest =>
      word_aliases inputWords cmd rest threshold
        (word_inputs cmd alias (split_ws (toLowerCase alias)) inputWords threshold st)
  end.

Fixpoint word_stage (inputWords : list str) (cmds : list CommandDefinition) (threshold : Q)
  (st : Best) : Best :=
  match cmds with
  | [] => st
  | cmd :: rest =>
      word_stage inputWords rest threshold (word_aliases inputWords cmd (aliases cmd) threshold st)
  end.

Definition normalize (input : str) : str := trim (toLowerCase input).

Definition matchCommand (input : str) (commands : list CommandDefinition) (threshold : Q)
  : option CommandMatch :=
  let normalizedInput := normalize input in
  match exact_stage normalizedInput commands with
  | Some m => Some m
  | None =>
      match contains_stage normalizedInput commands with
      | Some m => Some m
      | None =>
          let st3 := fuzzy_stage normalizedInput commands threshold (None, 0%Q) in
          match fst st3 with
          | Some m => Some m
          | None => fst (word_stage (split_ws normalizedInput) commands threshold st3)
          end
      end
  end.

(* ------------------------------------------------------------------ *)
(** ** [getSuggestions] (commandMatcher.ts, lines 220-243) *)

(** [arr.slice(0, end)] for an integer [end]: a negative [end] counts from
    the end of the array. *)
Definition slice0 {A} (l : list A) (end_ : Z) : list A :=
  let len := Z.of_nat (length l) in
  firstn (Z.to_nat (if (end_ <? 0)%Z then Z.max (len + end_) 0 else Z.min end_ len)) l.

Definition suggestion_scores (ni : str) (commands : list CommandDefinition) : list Scored :=
  flat_map (fun cmd => map (fun alias =>
    {| item := alias; s_score := score (fuzzyMatchPhonetic ni alias (3 # 10)) |})
    (aliases cmd)) commands.

Definition getSuggestions (input : str) (commands : list CommandDefinition) (maxSuggestions : Z)
  : list str :=
  let normalizedInput := normalize input in
  map item (slice0 (sort_desc (suggestion_scores normalizedInput commands)) maxSuggestions).

(* ------------------------------------------------------------------ *)
(** ** [matchContactName] (commandMatcher.ts, lines 248-266) *)

(** One alternative of [/^(call|phone|ring|dial)\s+/i]. *)
Definition strip_verb (verb : str) (s : str) : option str :=
  if prefixb verb (toLowerCase s) then
    match skipn (length verb) s with
    | c :: rest => if is_ws c then Some (drop_ws rest) else None
    | [] => None
    end
  else None.

Definition strip_call_prefix (s : str) : str :=
  match strip_verb (S_ "call") s with
  | Some r => r
  | None =>
      match strip_verb (S_ "phone") s with
      | Some r => r
      | None =>
          match strip_verb (S_ "ring") s with
          | Some r => r
          | None => match strip_verb (S_ "dial") s with Some r => r | None => s end
          end
      end
  end.

Record ContactMatch := { name : option str; cn_confidence : Q }.

Definition matchContactName (input : str) (contactNames : list str) (threshold : Q)
  : ContactMatch :=
  let normalizedInput := normalize input in
  let cleanInput := trim (strip_call_prefix normalizedInput) in
  let result := findBestMatch cleanInput contactNames threshold in
  {| name := bm_match result; cn_confidence := bm_score result |}.

(* ------------------------------------------------------------------ *)
(** ** [parseComplexCommand] (commandMatcher.ts, lines 271-304) *)

Record ParsedCommand := { action : option str; parameter : option str; pc_confidence : Q }.

Definition parseComplexCommand (input : str) (commands : list CommandDefinition)
  : ParsedCommand :=
  let normalizedInput := normalize input in
  match matchCommand normalizedInput commands (65 # 100) with
  | None => {| action := None; parameter := None; pc_confidence := 0 |}
  | Some actionMatch =>
      let words := split_ws normalizedInput in
      if 1 <? length words then
        let actionWords := split_ws (toLowerCase (matchedPhrase actionMatch)) in
        let parameterWords := filter (fun w => negb (mem w actionWords)) words in
        let parameter := join_space parameterWords in
        {| action := Some (command_ actionMatch);
           parameter := match parameter with [] => None | _ => Some parameter end;
           pc_confidence := confidence actionMatch |}
      else
        {| action := Some (command_ actionMatch); parameter := None;
           pc_confidence := confidence actionMatch |}
  end.

(* ------------------------------------------------------------------ *)
(** ** Callers: the voice-command handlers of the screens

    Each handler is modelled as a function from its inputs (the platform,
    the screen state it reads and the recognised text) to the one effect it
    performs; console logging is left out. *)

(** [arr.join(sep)]. *)
Fixpoint join_with (sep : str) (ws : list str) : str :=
  match ws with
  | [] => []
  | [w] => w
  | w :: ws' => w ++ sep ++ join_with sep ws'
  end.

(** [match && match.command === c]. *)
Definition is_command (m : option CommandMatch) (c : string) : bool :=
  match m with Some m => str_eqb (command_ m) (S_ c) | None => false end.

(** *** The emergency screen (app/emergency.tsx) *)

Inductive EmergencyState :=
  | Selecting | SendingLocation | Calling | InCall | Ended | MessageSent.

Scheme Equality for EmergencyState.

(** The fields of [Contact] the screen reads and writes; [lastContact] and
    [location] are optional and play no part in the voice handler. *)
Record Contact := {
  contact_id : str; contact_name : str; phone : str; relationship : str; isPrimary : bool }.

Definition contact (i n p r : string) (prim : bool) : Contact :=
  {| contact_id := S_ i; contact_name := S_ n; phone := S_ p; relationship := S_ r;
     isPrimary := prim |}.

Definition mockContacts : list Contact := [
  contact "1" "UWIMANA Lucy" "0788811121" "Primary Caregiver" true;
  contact "2" "HABIMANA Bill" "0780000012" "Family Member" false;
  contact "3" "MUKARUTESI Kelly" "0780121292" "Emergency Contact" false
]%string.

Inductive EmergencyEffect :=
  | SelectContact (c : Contact)   (* handleSelectContact(c) *)
  | EndCall                        (* handleEndCall() *)
  | Quit                           (* handleQuit() *)
  | Speak (msg : str)              (* Speech.speak(msg, ...) *)
  | NoEffect.

(** [handleVoiceCommand] of the emergency screen, lines 363-426. *)
Definition emergencyVoiceCommand (isWeb : bool) (emergencyState : EmergencyState)
  (sortedContacts : list Contact) (command : str) : EmergencyEffect :=
  let parsed := parseComplexCommand command EMERGENCY_COMMANDS in
  let match_ := matchCommand command EMERGENCY_COMMANDS (6 # 10) in
  let is_state s := EmergencyState_beq emergencyState s in
  if is_command match_ "call_first" && is_state Selecting then
    match sortedContacts with c :: _ => SelectContact c | [] => NoEffect end
  else if match action parsed with Some a => str_eqb a (S_ "call_first") | None => false end
          && match parameter parsed with Some (_ :: _) => true | _ => false end
          && is_state Selecting then
    let contactNames := map contact_name sortedContacts in
    let p := match parameter parsed with Some p => p | None => [] end in
    let nameMatch := matchContactName p contactNames (6 # 10) in
    match name nameMatch with
    | Some ((_ :: _) as n) =>
        match find (fun c => str_eqb (contact_name c) n) sortedContacts with
        | Some matchedContact => SelectContact matchedContact
        | None => NoEffect
        end
    | _ =>
        let suggestions := slice0 contactNames 2 in
        let errorMessage := S_ "I couldn't find that contact. Available contacts are: "
                            ++ join_with (S_ ", and ") suggestions ++ S_ "." in
        if isWeb then NoEffect else Speak errorMessage
    end
  else if is_command match_ "end_call" && is_state InCall then EndCall
  else if is_command match_ "back" && negb (is_state InCall) && negb (is_state Calling)
          && negb (is_state SendingLocation) then Quit
  else
    let errorMessage :=
      if is_state Selecting then
        let suggestions := getSuggestions command EMERGENCY_COMMANDS 3 in
        if (0 <? length suggestions)%nat then
          S_ "I didn't understand that. " ++ S_ "Try saying: "
            ++ join_with (S_ ", or ") (slice0 suggestions 2) ++ S_ "."
        else
          S_ "I didn't understand that. "
            ++ S_ "Say 'call' followed by a contact name, or 'call first' for nearest contact."
      else if is_state InCall then S_ "Say 'end call' to hang up."
      else S_ "I didn't understand that. " in
    if isWeb then NoEffect else Speak errorMessage.

(** *** The dashboard (app/dashboard.tsx) *)

(** The fields of [DashboardFeature] other than its icon. *)
Record DashboardFeature := {
  feature_id : str; title : str; feature_description : str; route : str; color : str }.

Definition feature (i t d r c : string) : DashboardFeature :=
  {| feature_id := S_ i; title := S_ t; feature_description := S_ d; route := S_ r;
     color := S_ c |}.

Definition features : list DashboardFeature := [
  feature "navigate" "Navigate" "Get real-time walking guidance and obstacle detection"
    "/navigate" "#10B981";
  feature "scan" "Scan Object" "Read text, identify objects, and describe your surroundings"
    "/scan" "#3B82F6";
  feature "emergency" "I need help" "Contact your caregiver and share your location"
    "/emergency" "#EF4444"
]%string.

Inductive DashboardEffect :=
  | FeaturePress (f : DashboardFeature)   (* handleFeaturePress(f) *)
  | RepeatInstructions                    (* handleRepeatInstructions() *)
  | RouterBack                            (* router.back() *)
  | DashboardSpeak (msg : str)            (* Speech.speak(msg, ...) *)
  | DashboardNoEffect.

Definition find_feature (i : string) : option DashboardFeature :=
  find (fun f => str_eqb (feature_id f) (S_ i)) features.

Definition press (i : string) : DashboardEffect :=
  match find_feature i with Some f => FeaturePress f | None => DashboardNoEffect end.

(** [handleVoiceCommand] of the dashboard, lines 130-180. *)
Definition dashboardVoiceCommand (isWeb : bool) (command : str) : DashboardEffect :=
  let match_ := matchCommand command GLOBAL_COMMANDS (6 # 10) in
  match match_ with
  | Some _ =>
      if is_command match_ "navigate" then press "navigate"
      else if is_command match_ "scan" then press "scan"
      else if is_command match_ "emergency" then press "emergency"
      else if is_command match_ "repeat" then RepeatInstructions
      else if is_command match_ "back" then RouterBack
      else DashboardNoEffect
  | None =>
      let suggestions := getSuggestions command GLOBAL_COMMANDS 3 in
      let errorMessage :=
        if (0 <? length suggestions)%nat then
          S_ "I didn't understand that. " ++ S_ "Did you mean: "
            ++ join_with (S_ ", or ") (slice0 suggestions 2) ++ S_ "?"
        else S_ "I didn't understand that. " ++ S_ "Try saying: navigate, scan, or emergency." in
      if isWeb then DashboardNoEffect else DashboardSpeak errorMessage
  end.

(** *** The scan screen (app/dashboard.tsx, second screen) *)

Inductive ScanEffect :=
  | HandleScan                  (* handleScan() *)
  | ModeChange (mode : str)     (* handleModeChange(mode) *)
  | ManualMode                  (* setAutoScan(false); speechManager.speak('Manual mode') *)
  | HandleQuit                  (* handleQuit() *)
  | ScanSpeak (msg : str)       (* speechManager.speak(msg, ...) *)
  | ScanNoEffect.

(** [handleVoiceCommand] of the scan screen, lines 996-1046. *)
Definition scanVoiceCommand (isWeb autoScan : bool) (command : str) : ScanEffect :=
  let match_ := matchCommand command SCAN_COMMANDS (6 # 10) in
  match match_ with
  | Some _ =>
      if is_command match_ "scan" then HandleScan
      else if is_command match_ "text" then ModeChange (S_ "text")
      else if is_command match_ "object" then ModeChange (S_ "object")
      else if is_command match_ "barcode" then ModeChange (S_ "barcode")
      else if is_command match_ "auto" then ModeChange (S_ "auto")
      else if is_command match_ "manual" then (if autoScan then ManualMode else ScanNoEffect)
      else if is_command match_ "exit" then HandleQuit
      else ScanNoEffect
  | None =>
      let suggestions := getSuggestions command SCAN_COMMANDS 3 in
      let errorMessage :=
        if (0 <? length suggestions)%nat then
          S_ "I didn't understand that. " ++ S_ "Did you mean: "
            ++ join_with (S_ ", or ") (slice0 suggestions 2) ++ S_ "?"
        else S_ "I didn't understand that. "
               ++ S_ "Try saying: scan, text mode, object mode, or exit." in
      if isWeb then ScanNoEffect else ScanSpeak errorMessage
  end.

(** *** The speech manager (utils/speechManager.ts)

    The [SpeechManager] object is a record; each method is a function on it.
    Callbacks are compared by reference in the source ([cb !== callback]), so
    they are modelled by identifiers ([nat]).  What the manager does outside
    itself (calls to [Speech.speak] and [Speech.stop], invocations of
    callbacks and [setTimeout]) is appended to [calls], in order; the speech
    options only set rate and language and are left out.  [Speech.speak]
    returns at once, and the engine later runs the utterance's [onDone] or
    [onError] handler, whose bodies are identical: [inFlight] is the
    utterance whose handler the engine still owes, and [speechDone] runs that
    handler.  [Speech.stop()] cancels the utterance without running it.  The
    [catch] branch runs the same body as [onError] at once, which is the
    [speechDone] event right after [processQueue].  Registered callbacks are
    modelled as having no effect of their own on the manager. *)

(** An entry of [speechQueue]. *)
Record QueuedSpeech := { q_text : str; q_onComplete : option nat }.

(** The manager's calls to the outside. *)
Inductive SpeechCall :=
  | CSpeechSpeak (text : str)
  | CSpeechStop
  | CCallback (cb : nat)
  | COnComplete (cb : nat)
  | CSetTimeout (cb : nat).

Record SpeechManager := mkSpeechManager {
  isSpeaking : bool;
  speechQueue : list QueuedSpeech;
  onSpeechStartCallbacks : list nat;
  onSpeechEndCallbacks : list nat;
  isProcessing : bool;
  inFlight : option QueuedSpeech;
  calls : list SpeechCall }.

Definition initialSpeechManager : SpeechManager :=
  mkSpeechManager false [] [] [] false None [].

(** [processQueue], up to its [await]: start the next utterance, or stop
    processing when the queue is empty. *)
Definition processQueue (st : SpeechManager) : SpeechManager :=
  match speechQueue st with
  | [] =>
      mkSpeechManager (isSpeaking st) [] (onSpeechStartCallbacks st)
        (onSpeechEndCallbacks st) false (inFlight st) (calls st)
  | u :: rest =>
      mkSpeechManager true rest (onSpeechStartCallbacks st) (onSpeechEndCallbacks st) true
        (Some u)
        (calls st ++ map CCallback (onSpeechStartCallbacks st) ++ [CSpeechSpeak (q_text u)])
  end.

(** The [onDone] / [onError] handler of the utterance in flight. *)
Definition speechDone (st : SpeechManager) : SpeechManager :=
  match inFlight st with
  | None => st
  | Some u =>
      processQueue
        (mkSpeechManager false (speechQueue st) (onSpeechStartCallbacks st)
           (onSpeechEndCallbacks st) (isProcessing st) None
           (calls st ++ map CCallback (onSpeechEndCallbacks st)
              ++ match q_onComplete u with Some cb => [COnComplete cb] | None => [] end))
  end.

(** [speak(text, options, onComplete)]; [isWeb] is [Platform.OS === 'web']. *)
Definition speak (isWeb : bool) (text : str) (onComplete : option nat) (st : SpeechManager)
  : SpeechManager :=
  if isWeb then
    match onComplete with
    | Some cb =>
        mkSpeechManager (isSpeaking st) (speechQueue st) (onSpeechStartCallbacks st)
          (onSpeechEndCallbacks st) (isProcessing st) (inFlight st)
          (calls st ++ [CSetTimeout cb])
    | None => st
    end
  else
    let st1 :=
      mkSpeechManager (isSpeaking st)
        (speechQueue st ++ [{| q_text := text; q_onComplete := onComplete |}])
        (onSpeechStartCallbacks st) (onSpeechEndCallbacks st) (isProcessing st)
        (inFlight st) (calls st) in
    if isProcessing st1 then st1 else processQueue st1.

(** [stop()]. *)
Definition stop (st : SpeechManager) : SpeechManager :=
  mkSpeechManager false [] (onSpeechStartCallbacks st) (onSpeechEndCallbacks st) false None
    (calls st ++ [CSpeechStop] ++ map CCallback (onSpeechEndCallbacks st)).

Definition with_callbacks (starts ends : list nat) (st : SpeechManager) : SpeechManager :=
  mkSpeechManager (isSpeaking st) (speechQueue st) starts ends (isProcessing st)
    (inFlight st) (calls st).

Definition onSpeechStart (cb : nat) (st : SpeechManager) : SpeechManager :=
  with_callbacks (onSpeechStartCallbacks st ++ [cb]) (onSpeechEndCallbacks st) st.

Definition onSpeechEnd (cb : nat) (st : SpeechManager) : SpeechManager :=
  with_callbacks (onSpeechStartCallbacks st) (onSpeechEndCallbacks st ++ [cb]) st.

Definition removeCallback (cb : nat) (st : SpeechManager) : SpeechManager :=
  with_callbacks (filter (fun c => negb (Nat.eqb c cb)) (onSpeechStartCallbacks st))
    (filter (fun c => negb (Nat.eqb c cb)) (onSpeechEndCallbacks st)) st.

Definition removeAllCallbacks (componentCallbacks : list nat) (st : SpeechManager)
  : SpeechManager :=
  fold_left (fun st cb => removeCallback cb st) componentCallbacks st.

Definition getIsSpeaking (st : SpeechManager) : bool := isSpeaking st.

Definition clearCallbacks (st : SpeechManager) : SpeechManager := with_callbacks [] [] st.

Definition clearAllCallbacks (st : SpeechManager) : SpeechManager := with_callbacks [] [] st.

Definition getCallbackCounts (st : SpeechManager) : nat * nat :=
  (length (onSpeechStartCallbacks st), length (onSpeechEndCallbacks st)).

(** What can happen to the manager: a method call or the engine's reply. *)
Inductive SpeechEvent :=
  | ESpeak (isWeb : bool) (text : str) (onComplete : option nat)
  | ESpeechDone
  | EStop
  | EOnSpeechStart (cb : nat)
  | EOnSpeechEnd (cb : nat)
  | ERemoveCallback (cb : nat)
  | ERemoveAllCallbacks (cbs : list nat)
  | EClearCallbacks
  | EClearAllCallbacks.

Definition speechStep (st : SpeechManager) (e : SpeechEvent) : SpeechManager :=
  match e with
  | ESpeak w t oc => speak w t oc st
  | ESpeechDone => speechDone st
  | EStop => stop st
  | EOnSpeechStart cb => onSpeechStart cb st
  | EOnSpeechEnd cb => onSpeechEnd cb st
  | ERemoveCallback cb => removeCallback cb st
  | ERemoveAllCallbacks cbs => removeAllCallbacks cbs st
  | EClearCallbacks => clearCallbacks st
  | EClearAllCallbacks => clearAllCallbacks st
  end.

Definition runSpeech (st : SpeechManager) (evs : list SpeechEvent) : SpeechManager :=
  fold_left speechStep evs st.

(** The texts passed to [Speech.speak] and the [onComplete] callbacks
    called so far; the texts and callbacks of the native [speak] requests of
    a run; and the [onComplete] callbacks still owed. *)
Definition spokenTexts (st : SpeechManager) : list str :=
  flat_map (fun c => match c with CSpeechSpeak t => [t] | _ => [] end) (calls st).

Definition completedCallbacks (st : SpeechManager) : list nat :=
  flat_map (fun c => match c with COnComplete cb => [cb] | _ => [] end) (calls st).

Definition requestedTexts (evs : list SpeechEvent) : list str :=
  flat_map (fun e => match e with ESpeak false t _ => [t] | _ => [] end) evs.

Definition requestedCallbacks (evs : list SpeechEvent) : list nat :=
  flat_map (fun e => match e with ESpeak false _ (Some cb) => [cb] | _ => [] end) evs.

Definition opt_list {A} (o : option A) : list A := match o with Some a => [a] | None => [] end.

Definition pendingCallbacks (st : SpeechManager) : list nat :=
  flat_map (fun u => opt_list (q_onComplete u)) (opt_list (inFlight st) ++ speechQueue st).

(* ================================================================== *)
(** * Proofs *)

(** ** The matrix computes the edit distance *)

Lemma lev_nil_l (t : str) : lev [] t = length t.
Proof. reflexivity. Qed.

Lemma lev_nil_r (s : str) : lev s [] = length s.
Proof. destruct s; reflexivity. Qed.

Lemma lev_cons (x y : ascii) (s t : str) :
  lev (x :: s) (y :: t) =
  Nat.min (Nat.min (lev s (y :: t) + 1) (lev (x :: s) t + 1)) (lev s t + cost x y).
Proof. reflexivity. Qed.

Lemma cost_sym (x y : ascii) : cost x y = cost y x.
Proof. unfold cost. rewrite Ascii.eqb_sym. reflexivity. Qed.

Lemma lev_sym (s t : str) : lev s t = lev t s.
Proof.
  remember (length s + length t)%nat as n eqn:Hn.
  revert s t Hn. induction n as [n IH] using lt_wf_ind.
  intros [|x s] [|y t] Hn; try (rewrite lev_nil_l, lev_nil_r; reflexivity).
  - reflexivity.
  - rewrite !lev_cons.
    simpl in Hn.
    rewrite (IH (length s + length (y :: t)) ltac:(simpl; lia) s (y :: t) eq_refl).
    rewrite (IH (length (x :: s) + length t) ltac:(simpl; lia) (x :: s) t eq_refl).
    rewrite (IH (length s + length t) ltac:(lia) s t eq_refl).
    rewrite cost_sym. lia.
Qed.

Lemma fill_rowspec (x : ascii) (s b acc : str) :
  fill x (lev (x :: s) acc) (rowspec s acc b) b = tl (rowspec (x :: s) acc b).
Proof.
  revert acc. induction b as [|y b IH]; intros acc.
  - reflexivity.
  - destruct b as [|z b'].
    + reflexivity.
    + transitivity (lev (x :: s) (y :: acc) ::
        fill x (lev (x :: s) (y :: acc)) (rowspec s (y :: acc) (z :: b')) (z :: b')).
      { reflexivity. }
      rewrite IH. reflexivity.
Qed.

Lemma rowspec_nil (acc b : str) :
  rowspec [] acc b = seq (length acc) (length b + 1).
Proof.
  revert acc. induction b as [|y b IH]; intros acc; simpl.
  - reflexivity.
  - rewrite IH. reflexivity.
Qed.

Lemma rows_rowspec (a pre b : str) :
  rows a (length pre) b (rowspec pre [] b) = rowspec (rev a ++ pre) [] b.
Proof.
  revert pre. induction a as [|x a IH]; intros pre.
  - reflexivity.
  - simpl rows.
    replace (S (length pre)) with (lev (x :: pre) []) by (rewrite lev_nil_r; reflexivity).
    rewrite fill_rowspec.
    assert (Hr : lev (x :: pre) [] :: tl (rowspec (x :: pre) [] b) = rowspec (x :: pre) [] b)
      by (destruct b; reflexivity).
    rewrite Hr. rewrite lev_nil_r.
    change (S (length pre)) with (length (x :: pre)).
    rewrite IH. simpl. rewrite <- app_assoc. reflexivity.
Qed.

Lemma last_rowspec (s acc b : str) : last (rowspec s acc b) 0%nat = lev s (rev b ++ acc).
Proof.
  revert acc. induction b as [|y b IH]; intros acc.
  - reflexivity.
  - change (rowspec s acc (y :: b)) with (lev s acc :: rowspec s (y :: acc) b).
    destruct b as [|z b'].
    + reflexivity.
    + change (lev s acc :: rowspec s (y :: acc) (z :: b'))
        with (lev s acc :: lev s (y :: acc) :: rowspec s (z :: y :: acc) b').
      change (last (lev s acc :: lev s (y :: acc) :: rowspec s (z :: y :: acc) b') 0%nat)
        with (last (rowspec s (y :: acc) (z :: b')) 0%nat).
      rewrite IH. change (rev (y :: z :: b')) with (rev (z :: b') ++ [y]).
      rewrite <- app_assoc. reflexivity.
Qed.

Lemma levenshteinDistance_lev (a b : str) :
  levenshteinDistance a b = lev (rev a) (rev b).
Proof.
  unfold levenshteinDistance.
  replace (seq 0 (length b + 1)) with (rowspec [] [] b) by apply rowspec_nil.
  change (rows a 0 b (rowspec [] [] b)) with (rows a (length (@nil ascii)) b (rowspec [] [] b)).
  rewrite rows_rowspec, last_rowspec, !app_nil_r. reflexivity.
Qed.


Lemma cost_le_1 (x y : ascii) : cost x y <= 1.
Proof. unfold cost. destruct (Ascii.eqb x y); lia. Qed.

Lemma lev_le_max (s t : str) : lev s t <= Nat.max (length s) (length t).
Proof.
  revert t. induction s as [|x s IHs]; intros t.
  - simpl. lia.
  - induction t as [|y t IHt].
    + rewrite lev_nil_r. simpl. lia.
    + rewrite lev_cons. specialize (IHs t). pose proof (cost_le_1 x y).
      simpl. simpl in IHs. lia.
Qed.

Lemma length_toLowerCase (s : str) : length (toLowerCase s) = length s.
Proof. apply length_map. Qed.

Lemma levenshteinDistance_le (a b : str) :
  levenshteinDistance a b <= Nat.max (length a) (length b).
Proof.
  rewrite levenshteinDistance_lev. rewrite <- (length_rev a), <- (length_rev b).
  apply lev_le_max.
Qed.

(** ** Scores lie in [0, 1] *)

Open Scope Q_scope.

Lemma similarityScore_bounds (a b : str) : 0 <= similarityScore a b <= 1.
Proof.
  unfold similarityScore.
  destruct (Nat.eqb_spec (Nat.max (length a) (length b)) 0%nat) as [_|Hm].
  - lra.
  - pose proof (levenshteinDistance_le (toLowerCase a) (toLowerCase b)) as Hd.
    rewrite !length_toLowerCase in Hd.
    set (d := levenshteinDistance (toLowerCase a) (toLowerCase b)) in *.
    set (m := Nat.max (length a) (length b)) in *.
    assert (Hm0 : 0 < inject_Z (Z.of_nat m))
      by (change 0 with (inject_Z 0); rewrite <- Zlt_Qlt; lia).
    assert (Hdm : inject_Z (Z.of_nat d) <= inject_Z (Z.of_nat m)) by (rewrite <- Zle_Qle; lia).
    assert (Hd0 : 0 <= inject_Z (Z.of_nat d)) by (change 0 with (inject_Z 0); rewrite <- Zle_Qle; lia).
    assert (H1 : 0 <= inject_Z (Z.of_nat d) / inject_Z (Z.of_nat m))
      by (apply Qle_shift_div_l; [exact Hm0 | lra]).
    assert (H2 : inject_Z (Z.of_nat d) / inject_Z (Z.of_nat m) <= 1)
      by (apply Qle_shift_div_r; [exact Hm0 | lra]).
    lra.
Qed.

Lemma similarityScore_nil : similarityScore [] [] = 1.
Proof. reflexivity. Qed.

Lemma Qltb_true (a b : Q) : Qltb a b = true -> a < b.
Proof.
  unfold Qltb. intros H. apply negb_true_iff in H.
  apply Qnot_le_lt. intros Hle. apply Qle_bool_iff in Hle. congruence.
Qed.

Lemma Qltb_false (a b : Q) : Qltb a b = false -> b <= a.
Proof.
  unfold Qltb. intros H. apply negb_false_iff in H. apply Qle_bool_iff. exact H.
Qed.

Lemma js_max_cases (a b : Q) : js_max a b = a \/ js_max a b = b.
Proof. unfold js_max. destruct (Qltb a b); auto. Qed.

Lemma js_max_ge_l (a b : Q) : a <= js_max a b.
Proof.
  unfold js_max. destruct (Qltb a b) eqn:H.
  - apply Qlt_le_weak, Qltb_true, H.
  - apply Qle_refl.
Qed.

Lemma fuzzyMatchPhonetic_bounds (a b : str) (t : Q) :
  0 <= score (fuzzyMatchPhonetic a b t) <= 1.
Proof.
  unfold fuzzyMatchPhonetic. destruct (Qle_bool t (similarityScore a b)).
  - apply similarityScore_bounds.
  - simpl. destruct (js_max_cases (similarityScore a b)
      (similarityScore (normalizePhonetic a) (normalizePhonetic b))) as [-> | ->];
      apply similarityScore_bounds.
Qed.

Lemma scan_targets_some (w : str) (ts : list str) (t : Q) (tg : str) (sc : Q) :
  scan_targets w ts t = Some (tg, sc) ->
  In tg ts /\ sc = similarityScore w (toLowerCase tg) /\ t <= sc.
Proof.
  induction ts as [|x ts IH]; simpl; [discriminate|].
  destruct (Qle_bool t (similarityScore w (toLowerCase x))) eqn:E.
  - intros [= <- <-]. apply Qle_bool_iff in E. auto.
  - intros H. destruct (IH H) as (? & ? & ?). auto.
Qed.

Lemma scan_words_some (ws ts : list str) (t : Q) (tg : str) (sc : Q) :
  scan_words ws ts t = Some (tg, sc) ->
  exists w, In w ws /\ In tg ts /\ sc = similarityScore w (toLowerCase tg) /\ t <= sc.
Proof.
  induction ws as [|w ws IH]; simpl; [discriminate|].
  destruct (scan_targets w ts t) as [[tg' sc']|] eqn:E.
  - intros [= <- <-]. apply scan_targets_some in E. exists w. tauto.
  - intros H. destruct (IH H) as (w' & ?). exists w'. tauto.
Qed.

Lemma containsFuzzy_bounds (w : str) (ts : list str) (t : Q) :
  0 <= cf_score (containsFuzzy w ts t) <= 1.
Proof.
  unfold containsFuzzy.
  destruct (scan_words _ ts t) as [[tg sc]|] eqn:E; simpl.
  - apply scan_words_some in E. destruct E as (w' & _ & _ & -> & _).
    apply similarityScore_bounds.
  - lra.
Qed.

(** ** The stages of [matchCommand] *)

Lemma str_eqb_spec (a b : str) : str_eqb a b = true <-> a = b.
Proof. unfold str_eqb. destruct (list_eq_dec ascii_dec a b); split; congruence. Qed.

Lemma exact_aliases_some (ni : str) (cmd : CommandDefinition) (als : list str) (m : CommandMatch) :
  exact_aliases ni cmd als = Some m ->
  exists alias, In alias als /\ ni = toLowerCase alias /\ m = hit cmd 1 alias.
Proof.
  induction als as [|a als IH]; simpl; [discriminate|].
  destruct (str_eqb ni (toLowerCase a)) eqn:E.
  - intros [= <-]. apply str_eqb_spec in E. eauto.
  - intros H. destruct (IH H) as (alias & ? & ? & ?). eauto.
Qed.

Lemma exact_stage_some (ni : str) (cmds : list CommandDefinition) (m : CommandMatch) :
  exact_stage ni cmds = Some m ->
  exists cmd alias, In cmd cmds /\ In alias (aliases cmd) /\ ni = toLowerCase alias
                    /\ m = hit cmd 1 alias.
Proof.
  induction cmds as [|c cmds IH]; simpl; [discriminate|].
  destruct (exact_aliases ni c (aliases c)) as [m'|] eqn:E.
  - intros [= <-]. apply exact_aliases_some in E. destruct E as (alias & ?).
    exists c, alias. simpl. intuition.
  - intros H. destruct (IH H) as (cmd & alias & ?). exists cmd, alias. simpl. intuition.
Qed.

Lemma exact_aliases_none (ni : str) (cmd : CommandDefinition) (als : list str) :
  exact_aliases ni cmd als = None <-> (forall alias, In alias als -> ni <> toLowerCase alias).
Proof.
  induction als as [|a als IH]; simpl.
  - split; [tauto | reflexivity].
  - destruct (str_eqb ni (toLowerCase a)) eqn:E.
    + apply str_eqb_spec in E. split; [discriminate|]. intros H. exfalso. exact (H a (or_introl eq_refl) E).
    + rewrite IH. split.
      * intros H alias [<- | Hin]; [|auto]. intros Heq. apply str_eqb_spec in Heq. congruence.
      * intros H alias Hin. auto.
Qed.

Lemma exact_stage_none (ni : str) (cmds : list CommandDefinition) :
  exact_stage ni cmds = None <->
  (forall cmd alias, In cmd cmds -> In alias (aliases cmd) -> ni <> toLowerCase alias).
Proof.
  induction cmds as [|c cmds IH]; simpl.
  - split; [tauto | reflexivity].
  - destruct (exact_aliases ni c (aliases c)) eqn:E.
    + split; [discriminate|]. intros H. exfalso.
      assert (Hn : exact_aliases ni c (aliases c) = None).
      { apply exact_aliases_none. intros alias Hin. apply (H c alias (or_introl eq_refl) Hin). }
      congruence.
    + rewrite IH. pose proof (proj1 (exact_aliases_none ni c (aliases c)) E) as E'. split.
      * intros H cmd alias [<- | Hin]; [apply E' | apply (H cmd alias Hin)].
      * intros H cmd alias Hin. apply (H cmd alias (or_intror Hin)).
Qed.

Lemma contains_aliases_some (ni : str) (cmd : CommandDefinition) (als : list str) (m : CommandMatch) :
  contains_aliases ni cmd als = Some m -> confidence m = 9 # 10.
Proof.
  induction als as [|a als IH]; simpl; [discriminate|].
  destruct (contains_hit ni a); [intros [= <-]; reflexivity | exact IH].
Qed.

Lemma contains_stage_some (ni : str) (cmds : list CommandDefinition) (m : CommandMatch) :
  contains_stage ni cmds = Some m -> confidence m = 9 # 10.
Proof.
  induction cmds as [|c cmds IH]; simpl; [discriminate|].
  destruct (contains_aliases ni c (aliases c)) eqn:E.
  - intros [= <-]. eapply contains_aliases_some; eauto.
  - exact IH.
Qed.

(** [improves st st']: the tracker is left as it was, or it now holds a
    match whose confidence is its new best score, strictly above the old. *)
Definition improves (st st' : Best) : Prop :=
  st' = st \/ (exists m, fst st' = Some m /\ confidence m = snd st' /\ snd st < snd st').

Lemma improves_refl (st : Best) : improves st st.
Proof. left. reflexivity. Qed.

Lemma improves_trans (a b c : Best) : improves a b -> improves b c -> improves a c.
Proof.
  intros [-> | (m & Hm & Hc & Hlt)] [-> | (m' & Hm' & Hc' & Hlt')].
  - left. reflexivity.
  - right. eauto.
  - right. eauto.
  - right. exists m'. repeat split; auto. eapply Qlt_trans; eauto.
Qed.

Lemma improves_step (b : bool) (cmd : CommandDefinition) (sc : Q) (alias : str) (st : Best) :
  improves st (if b && Qltb (snd st) sc then (Some (hit cmd sc alias), sc) else st).
Proof.
  destruct (b && Qltb (snd st) sc) eqn:E.
  - right. apply andb_true_iff in E as [_ E]. apply Qltb_true in E.
    exists (hit cmd sc alias). simpl. auto.
  - apply improves_refl.
Qed.

Lemma fuzzy_aliases_improves ni cmd als t st : improves st (fuzzy_aliases ni cmd als t st).
Proof.
  revert st. induction als as [|a als IH]; intros st; simpl.
  - apply improves_refl.
  - eapply improves_trans; [apply improves_step | apply IH].
Qed.

Lemma fuzzy_stage_improves ni cmds t st : improves st (fuzzy_stage ni cmds t st).
Proof.
  revert st. induction cmds as [|c cmds IH]; intros st; simpl.
  - apply improves_refl.
  - eapply improves_trans; [apply fuzzy_aliases_improves | apply IH].
Qed.

Lemma word_inputs_improves cmd alias aws iws t st :
  improves st (word_inputs cmd alias aws iws t st).
Proof.
  revert st. induction iws as [|w iws IH]; intros st; simpl.
  - apply improves_refl.
  - eapply improves_trans; [apply improves_step | apply IH].
Qed.

Lemma word_aliases_improves iws cmd als t st : improves st (word_aliases iws cmd als t st).
Proof.
  revert st. induction als as [|a als IH]; intros st; simpl.
  - apply improves_refl.
  - eapply improves_trans; [apply word_inputs_improves | apply IH].
Qed.

Lemma word_stage_improves iws cmds t st : improves st (word_stage iws cmds t st).
Proof.
  revert st. induction cmds as [|c cmds IH]; intros st; simpl.
  - apply improves_refl.
  - eapply improves_trans; [apply word_aliases_improves | apply IH].
Qed.

Definition best_ok (st : Best) : Prop :=
  match fst st with Some m => 0 <= confidence m <= 1 | None => True end.

Lemma best_ok_step (b : bool) (cmd : CommandDefinition) (sc : Q) (alias : str) (st : Best) :
  best_ok st -> 0 <= sc <= 1 ->
  best_ok (if b && Qltb (snd st) sc then (Some (hit cmd sc alias), sc) else st).
Proof. intros Hst Hsc. destruct (b && Qltb (snd st) sc); [exact Hsc | exact Hst]. Qed.

Lemma fuzzy_stage_ok ni cmds t st : best_ok st -> best_ok (fuzzy_stage ni cmds t st).
Proof.
  revert st. induction cmds as [|c cmds IH]; intros st Hst; simpl; [exact Hst|].
  apply IH. generalize (aliases c) as als. intros als. revert st Hst.
  induction als as [|a als IHa]; intros st Hst; simpl; [exact Hst|].
  apply IHa, best_ok_step; [exact Hst | apply fuzzyMatchPhonetic_bounds].
Qed.

Lemma word_inputs_ok cmd alias aws iws t st :
  best_ok st -> best_ok (word_inputs cmd alias aws iws t st).
Proof.
  revert st. induction iws as [|w iws IH]; intros st Hst; simpl; [exact Hst|].
  apply IH, best_ok_step; [exact Hst | apply containsFuzzy_bounds].
Qed.

Lemma word_stage_ok iws cmds t st : best_ok st -> best_ok (word_stage iws cmds t st).
Proof.
  revert st. induction cmds as [|c cmds IH]; intros st Hst; simpl; [exact Hst|].
  apply IH. generalize (aliases c) as als. intros als. revert st Hst.
  induction als as [|a als IHa]; intros st Hst; simpl; [exact Hst|].
  apply IHa, word_inputs_ok, Hst.
Qed.

(** A tracker that still holds no match still holds the score it started with. *)
Lemma improves_none (st st' : Best) : improves st st' -> fst st' = None -> st' = st.
Proof. intros [-> | (m & Hm & _)] H; [reflexivity | congruence]. Qed.

(* ================================================================== *)
(** * Claims *)

(** ** C1 *)

(** C1 (as amended).  Every match [matchCommand] returns has a confidence in
    [0, 1], and when the normalized input equals some lowercased alias the
    result is an exact-match hit on such an alias with confidence exactly 1. *)
Theorem matchCommand_confidence (input : str) (cmds : list CommandDefinition) (t : Q) :
  (forall m, matchCommand input cmds t = Some m -> 0 <= confidence m <= 1) /\
  ((exists cmd alias, In cmd cmds /\ In alias (aliases cmd) /\ normalize input = toLowerCase alias) ->
   exists cmd alias, In cmd cmds /\ In alias (aliases cmd) /\ normalize input = toLowerCase alias
     /\ matchCommand input cmds t = Some (hit cmd 1 alias)).
Proof.
  split.
  - intros m. unfold matchCommand.
    destruct (exact_stage (normalize input) cmds) as [m1|] eqn:E1.
    { intros [= <-]. apply exact_stage_some in E1. destruct E1 as (? & ? & _ & _ & _ & ->).
      simpl. lra. }
    destruct (contains_stage (normalize input) cmds) as [m2|] eqn:E2.
    { intros [= <-]. apply contains_stage_some in E2. rewrite E2. lra. }
    pose proof (fuzzy_stage_ok (normalize input) cmds t (None, 0) I) as H3.
    destruct (fst (fuzzy_stage (normalize input) cmds t (None, 0))) as [m3|] eqn:E3.
    { intros [= <-]. unfold best_ok in H3. rewrite E3 in H3. exact H3. }
    intros H4.
    pose proof (word_stage_ok (split_ws (normalize input)) cmds t _ H3) as H4'.
    unfold best_ok in H4'. rewrite H4 in H4'. exact H4'.
  - intros (cmd & alias & Hc & Ha & He).
    destruct (exact_stage (normalize input) cmds) as [m|] eqn:E.
    + destruct (exact_stage_some _ _ _ E) as (cmd' & alias' & Hc' & Ha' & He' & ->).
      exists cmd', alias'. repeat split; auto.
      unfold matchCommand. rewrite E. reflexivity.
    + exfalso. exact (proj1 (exact_stage_none _ _) E cmd alias Hc Ha He).
Qed.

(** C1, counterexample.  On [GLOBAL_COMMANDS] with the default threshold,
    "please go now" (no alias equals it) is matched by the per-word stage
    with confidence 1, and "seeeee" by the phonetic stage with confidence 1. *)
Lemma matchCommand_confidence_one_not_exact :
  (forall cmd alias, In cmd GLOBAL_COMMANDS -> In alias (aliases cmd) ->
     normalize (S_ "please go now") <> toLowerCase alias) /\
  (exists m, matchCommand (S_ "please go now") GLOBAL_COMMANDS (65 # 100) = Some m
             /\ confidence m == 1) /\
  (forall cmd alias, In cmd GLOBAL_COMMANDS -> In alias (aliases cmd) ->
     normalize (S_ "seeeee") <> toLowerCase alias) /\
  (exists m, matchCommand (S_ "seeeee") GLOBAL_COMMANDS (65 # 100) = Some m
             /\ confidence m == 1).
Proof.
  split; [apply exact_stage_none; vm_compute; reflexivity|].
  split; [eexists; split; [vm_compute; reflexivity | reflexivity]|].
  split; [apply exact_stage_none; vm_compute; reflexivity|].
  eexists; split; [vm_compute; reflexivity | reflexivity].
Qed.

(** ** C2 *)

(** C2.  When the exact and containment stages find nothing, the per-word
    stage runs on the tracker [st3] left by the phonetic stage: the result is
    the phonetic stage's best match, or else a per-word hit, also the final
    state of that shared tracker, whose confidence strictly exceeds the best
    score [snd st3] of the phonetic stage. *)
Theorem matchCommand_shared_tracker (input : str) (cmds : list CommandDefinition) (t : Q)
  (H1 : exact_stage (normalize input) cmds = None)
  (H2 : contains_stage (normalize input) cmds = None) :
  let st3 := fuzzy_stage (normalize input) cmds t (None, 0) in
  let st4 := word_stage (split_ws (normalize input)) cmds t st3 in
  matchCommand input cmds t = fst st3 \/
  (fst st3 = None /\ exists m, matchCommand input cmds t = Some m /\ fst st4 = Some m
                              /\ snd st3 < confidence m).
Proof.
  intros st3 st4. unfold matchCommand. rewrite H1, H2. fold st3.
  destruct (fst st3) as [m3|] eqn:E3; [left; reflexivity|].
  fold st4.
  destruct (word_stage_improves (split_ws (normalize input)) cmds t st3)
    as [Heq | (m & Hm & Hc & Hlt)].
  - left. fold st4 in Heq. rewrite Heq. exact E3.
  - right. fold st4 in Hm, Hc, Hlt. split; [reflexivity|]. exists m. rewrite Hm, Hc. auto.
Qed.

(** C2, instance: "please go now" on [GLOBAL_COMMANDS] passes the exact and
    containment stages and is resolved by the per-word stage. *)
Lemma matchCommand_shared_tracker_witness :
  exact_stage (normalize (S_ "please go now")) GLOBAL_COMMANDS = None /\
  contains_stage (normalize (S_ "please go now")) GLOBAL_COMMANDS = None /\
  (let st3 := fuzzy_stage (normalize (S_ "please go now")) GLOBAL_COMMANDS (65 # 100) (None, 0) in
   let st4 := word_stage (split_ws (normalize (S_ "please go now"))) GLOBAL_COMMANDS (65 # 100) st3 in
   matchCommand (S_ "please go now") GLOBAL_COMMANDS (65 # 100) = fst st3 \/
   (fst st3 = None /\ exists m, matchCommand (S_ "please go now") GLOBAL_COMMANDS (65 # 100) = Some m
                               /\ fst st4 = Some m /\ snd st3 < confidence m)).
Proof.
  split; [vm_compute; reflexivity|].
  split; [vm_compute; reflexivity|].
  apply matchCommand_shared_tracker; vm_compute; reflexivity.
Defined.

(** ** C5 *)

(** C5.  The score of [fuzzyMatchPhonetic a b t] is at least the plain
    similarity of [a] and [b], whatever the threshold. *)
Theorem fuzzyMatchPhonetic_score_ge_similarity (a b : str) (t : Q) :
  similarityScore a b <= score (fuzzyMatchPhonetic a b t).
Proof.
  unfold fuzzyMatchPhonetic. destruct (Qle_bool t (similarityScore a b)).
  - apply Qle_refl.
  - apply js_max_ge_l.
Qed.

(** ** C9 *)

(** C9.  [levenshteinDistance] is symmetric: both orders compute the edit
    distance [lev] of the same two strings. *)
Theorem levenshteinDistance_symmetric (a b : str) :
  levenshteinDistance a b = levenshteinDistance b a.
Proof. rewrite !levenshteinDistance_lev. apply lev_sym. Qed.

(** ** The stable descending sort *)

Definition desc (a b : Scored) : Prop := s_score b <= s_score a.

Lemma insert_desc_perm (x : Scored) (l : list Scored) : Permutation (insert_desc x l) (x :: l).
Proof.
  induction l as [|y l IH]; simpl; [reflexivity|].
  destruct (Qle_bool (s_score y) (s_score x)); [reflexivity|].
  rewrite IH. apply perm_swap.
Qed.

Lemma sort_desc_perm (l : list Scored) : Permutation (sort_desc l) l.
Proof.
  induction l as [|x l IH]; simpl; [reflexivity|].
  rewrite insert_desc_perm, IH. reflexivity.
Qed.

Lemma insert_desc_sorted (x : Scored) (l : list Scored) :
  Sorted desc l -> Sorted desc (insert_desc x l).
Proof.
  induction l as [|y l IH]; simpl; intros Hs.
  - repeat constructor.
  - destruct (Qle_bool (s_score y) (s_score x)) eqn:E.
    + constructor; [exact Hs | constructor; apply Qle_bool_iff, E].
    + assert (Hxy : s_score x <= s_score y).
      { apply Qlt_le_weak, Qnot_le_lt. intros Hle. apply Qle_bool_iff in Hle. congruence. }
      inversion Hs as [|? ? Hs' Hhd]; subst. constructor; [apply IH, Hs'|].
      destruct l as [|z l']; simpl.
      * constructor. exact Hxy.
      * inversion Hhd; subst.
        destruct (Qle_bool (s_score z) (s_score x)); constructor; assumption.
Qed.

Lemma sort_desc_sorted (l : list Scored) : Sorted desc (sort_desc l).
Proof.
  induction l as [|x l IH]; simpl; [constructor | apply insert_desc_sorted, IH].
Qed.

Lemma desc_trans : Transitive desc.
Proof. intros a b c H1 H2. unfold desc in *. eapply Qle_trans; eauto. Qed.

Lemma sort_desc_strongly (l : list Scored) : StronglySorted desc (sort_desc l).
Proof. apply Sorted_StronglySorted; [apply desc_trans | apply sort_desc_sorted]. Qed.

Lemma Permutation_filter_ {A} (f : A -> bool) (l l' : list A) :
  Permutation l l' -> Permutation (filter f l) (filter f l').
Proof.
  induction 1; simpl.
  - reflexivity.
  - destruct (f x); [apply perm_skip|]; assumption.
  - destruct (f x), (f y); try apply perm_swap; reflexivity.
  - etransitivity; eassumption.
Qed.

Lemma StronglySorted_filter {A} (R : A -> A -> Prop) (f : A -> bool) (l : list A) :
  StronglySorted R l -> StronglySorted R (filter f l).
Proof.
  induction 1 as [|x l Hs IH Hall]; simpl; [constructor|].
  destruct (f x); [|exact IH].
  constructor; [exact IH|].
  apply Forall_forall. intros y Hy. apply filter_In in Hy as [Hy _].
  exact (proj1 (Forall_forall _ _) Hall y Hy).
Qed.

(** ** C4 *)

(** C4.  With [scores] the similarity of the normalized input to each
    lowercased option: [allMatches] holds exactly the scored options at or
    above the threshold (as a permutation), in descending order; if every
    score is below the threshold the match is [None] with score 0; otherwise
    the match is an option of highest score, returned with that score. *)
Theorem findBestMatch_threshold (input : str) (options : list str) (t : Q) :
  let scores := score_options (trim (toLowerCase input)) options in
  let r := findBestMatch input options t in
  Permutation (allMatches r) (filter (fun s => Qle_bool t (s_score s)) scores) /\
  Sorted desc (allMatches r) /\
  ((forall s, In s scores -> s_score s < t) -> bm_match r = None /\ bm_score r = 0) /\
  ((exists s, In s scores /\ t <= s_score s) ->
   exists s, In s scores /\ bm_match r = Some (item s) /\ bm_score r = s_score s
             /\ forall s', In s' scores -> s_score s' <= s_score s).
Proof.
  intros scores r.
  assert (Hall : allMatches r = filter (fun s => Qle_bool t (s_score s)) (sort_desc scores)).
  { unfold r, findBestMatch. fold scores.
    destruct (sort_desc scores) as [|b rest]; [reflexivity|].
    destruct (Qle_bool t (s_score b)); reflexivity. }
  pose proof (sort_desc_perm scores) as Hperm.
  pose proof (sort_desc_strongly scores) as Hss.
  split; [rewrite Hall; apply Permutation_filter_, Hperm|].
  split; [rewrite Hall; apply StronglySorted_Sorted, StronglySorted_filter, Hss|].
  unfold r, findBestMatch. fold scores.
  destruct (sort_desc scores) as [|b rest] eqn:Es.
  - split; [intros _; split; reflexivity|].
    intros (s & Hin & _). apply Permutation_sym in Hperm.
    apply (Permutation_in _ Hperm) in Hin. destruct Hin.
  - assert (Hb : In b scores) by (apply (Permutation_in _ Hperm); left; reflexivity).
    assert (Hmax : forall s', In s' scores -> s_score s' <= s_score b).
    { intros s' Hin. apply Permutation_sym in Hperm. apply (Permutation_in _ Hperm) in Hin.
      destruct Hin as [<- | Hin]; [apply Qle_refl|].
      inversion Hss as [|? ? _ Hfor]; subst.
      exact (proj1 (Forall_forall _ _) Hfor s' Hin). }
    destruct (Qle_bool t (s_score b)) eqn:Eb.
    + split.
      * intros Hlt. exfalso. apply Qle_bool_iff in Eb. specialize (Hlt b Hb).
        apply (Qlt_not_le _ _ Hlt Eb).
      * intros _. exists b. simpl. auto.
    + split; [intros _; split; reflexivity|].
      intros (s & Hin & Hle). exfalso.
      assert (Htb : t <= s_score b) by (eapply Qle_trans; [exact Hle | apply Hmax, Hin]).
      apply Qle_bool_iff in Htb. congruence.
Qed.

(** ** C6 *)

(** The (word, target) pairs in the order the two loops visit them. *)
Definition scan_pairs (words targets : list str) : list (str * str) :=
  flat_map (fun w => map (fun target => (w, target)) targets) words.

Definition pair_hit (t : Q) (p : str * str) : bool :=
  Qle_bool t (similarityScore (fst p) (toLowerCase (snd p))).

Definition pair_result (p : str * str) : str * Q :=
  (snd p, similarityScore (fst p) (toLowerCase (snd p))).

Lemma scan_targets_find (w : str) (ts : list str) (t : Q) :
  scan_targets w ts t = option_map pair_result (find (pair_hit t) (map (fun tg => (w, tg)) ts)).
Proof.
  induction ts as [|tg ts IH]; simpl; [reflexivity|].
  unfold pair_hit at 1. simpl. destruct (Qle_bool t _); [reflexivity | exact IH].
Qed.

Lemma find_app {A} (f : A -> bool) (l1 l2 : list A) :
  find f (l1 ++ l2) = match find f l1 with Some x => Some x | None => find f l2 end.
Proof. induction l1 as [|x l1 IH]; simpl; [reflexivity|]. destruct (f x); auto. Qed.

Lemma scan_words_find (ws ts : list str) (t : Q) :
  scan_words ws ts t = option_map pair_result (find (pair_hit t) (scan_pairs ws ts)).
Proof.
  induction ws as [|w ws IH]; simpl; [reflexivity|].
  unfold scan_pairs. simpl. rewrite find_app. fold (scan_pairs ws ts).
  rewrite scan_targets_find.
  destruct (find (pair_hit t) (map (fun tg => (w, tg)) ts)); simpl; [reflexivity | exact IH].
Qed.

(** C6.  [containsFuzzy] returns the first (word, target) pair, input words
    in the outer loop and targets in the inner one, whose similarity reaches
    the threshold, and [{found: false, matchedWord: null, score: 0}] when
    there is none.  It is not the best pair: on "cat cab" and target "cab" at
    threshold 0.6 it reports the score of "cat", below that of "cab". *)
Theorem containsFuzzy_first_hit (input : str) (targets : list str) (t : Q) :
  containsFuzzy input targets t =
  match find (pair_hit t) (scan_pairs (split_ws (toLowerCase input)) targets) with
  | Some (w, target) =>
      {| found := true; matchedWord := Some target;
         cf_score := similarityScore w (toLowerCase target) |}
  | None => {| found := false; matchedWord := None; cf_score := 0 |}
  end /\
  cf_score (containsFuzzy (S_ "cat cab") [S_ "cab"] (6 # 10))
    < similarityScore (S_ "cab") (S_ "cab").
Proof.
  split.
  - unfold containsFuzzy. rewrite scan_words_find.
    destruct (find _ _) as [[w target]|]; reflexivity.
  - vm_compute. reflexivity.
Qed.

(** ** C8 *)

(** C8.  [matchContactName] strips one leading "call", "phone", "ring" or
    "dial" followed by whitespace from the normalized input, passes the rest
    to [findBestMatch], and returns [{name: null, confidence: 0}] when no
    contact name's score reaches the threshold. *)
Theorem matchContactName_spec (input : str) (contactNames : list str) (t : Q) :
  let cleanInput := trim (strip_call_prefix (normalize input)) in
  let result := findBestMatch cleanInput contactNames t in
  (forall verb, In verb [S_ "call"; S_ "phone"; S_ "ring"; S_ "dial"] ->
   forall c rest, is_ws c = true -> strip_call_prefix (verb ++ c :: rest) = drop_ws rest) /\
  matchContactName input contactNames t =
    {| name := bm_match result; cn_confidence := bm_score result |} /\
  ((forall s, In s (score_options (trim (toLowerCase cleanInput)) contactNames) -> s_score s < t) ->
   matchContactName input contactNames t = {| name := None; cn_confidence := 0 |}).
Proof.
  intros cleanInput result.
  split.
  { intros verb Hv c rest Hc.
    destruct Hv as [<- | [<- | [<- | [<- | []]]]];
      unfold strip_call_prefix, strip_verb; cbn; rewrite Hc; reflexivity. }
  split; [reflexivity|].
  intros Hlt.
  destruct (findBestMatch_threshold cleanInput contactNames t) as (_ & _ & Hnone & _).
  destruct (Hnone Hlt) as [Hm Hs].
  change (matchContactName input contactNames t)
    with {| name := bm_match result; cn_confidence := bm_score result |}.
  unfold result. rewrite Hm, Hs. reflexivity.
Qed.

(** ** C10 *)

Lemma suggestion_scores_items (ni : str) (cmds : list CommandDefinition) :
  map item (suggestion_scores ni cmds) = flat_map aliases cmds.
Proof.
  unfold suggestion_scores. induction cmds as [|c cmds IH]; simpl; [reflexivity|].
  rewrite map_app, map_map, IH. simpl. rewrite map_id. reflexivity.
Qed.

Lemma slice0_nonneg {A} (l : list A) (n : Z) :
  (0 <= n)%Z -> slice0 l n = firstn (Z.to_nat n) l.
Proof.
  intros Hn. unfold slice0.
  destruct (Z.ltb_spec n 0) as [Hlt|_]; [lia|].
  rewrite Z2Nat.inj_min, Nat2Z.id.
  destruct (Nat.le_ge_cases (Z.to_nat n) (length l)) as [Hle|Hge].
  - rewrite Nat.min_l by exact Hle. reflexivity.
  - rewrite Nat.min_r by exact Hge. rewrite firstn_all, firstn_all2 by exact Hge. reflexivity.
Qed.

(** C10 (as amended).  For a non-negative integer [maxSuggestions],
    [getSuggestions] returns exactly [min(maxSuggestions, number of aliases)]
    aliases: the first ones of all the catalog's aliases, none left out,
    sorted stably by descending [fuzzyMatchPhonetic(input, alias, 0.3)]
    score. *)
Theorem getSuggestions_top_n (input : str) (cmds : list CommandDefinition) (n : Z)
  (Hn : (0 <= n)%Z) :
  let all := suggestion_scores (normalize input) cmds in
  getSuggestions input cmds n = map item (firstn (Z.to_nat n) (sort_desc all)) /\
  length (getSuggestions input cmds n) = Nat.min (Z.to_nat n) (length (flat_map aliases cmds)) /\
  Permutation (map item (sort_desc all)) (flat_map aliases cmds) /\
  Sorted desc (sort_desc all).
Proof.
  intros all.
  assert (Hg : getSuggestions input cmds n = map item (firstn (Z.to_nat n) (sort_desc all)))
    by (unfold getSuggestions; rewrite slice0_nonneg by exact Hn; reflexivity).
  assert (Hp : Permutation (map item (sort_desc all)) (flat_map aliases cmds)).
  { rewrite <- (suggestion_scores_items (normalize input) cmds).
    apply Permutation_map, sort_desc_perm. }
  split; [exact Hg|].
  split; [|split; [exact Hp | apply sort_desc_sorted]].
  rewrite Hg, length_map, length_firstn.
  rewrite <- (Permutation_length Hp), length_map. reflexivity.
Qed.

(** C10, counterexample.  The 0.3 threshold does change scores: the alias
    "see" scored for the input "seeeee" gets the plain similarity 1/2 at
    threshold 0.3, although the larger of the plain and phonetic
    similarities is 1 (the score it gets at the default threshold 0.65).
    And a negative [maxSuggestions] of -1 does not give [min(-1, 49)]
    suggestions on [SCAN_COMMANDS] (49 aliases): slicing drops the last one. *)
Lemma getSuggestions_threshold_changes_score :
  In (S_ "see") (flat_map aliases GLOBAL_COMMANDS) /\
  score (fuzzyMatchPhonetic (S_ "seeeee") (S_ "see") (3 # 10)) == 1 # 2 /\
  js_max (similarityScore (S_ "seeeee") (S_ "see"))
         (similarityScore (normalizePhonetic (S_ "seeeee")) (normalizePhonetic (S_ "see"))) == 1 /\
  score (fuzzyMatchPhonetic (S_ "seeeee") (S_ "see") (65 # 100)) == 1 /\
  length (flat_map aliases SCAN_COMMANDS) = 49%nat /\
  Z.of_nat (length (getSuggestions (S_ "skan") SCAN_COMMANDS (-1))) <> Z.min (-1) 49.
Proof.
  split; [vm_compute; tauto|].
  split; [vm_compute; reflexivity|].
  split; [vm_compute; reflexivity|].
  split; [vm_compute; reflexivity|].
  split; [vm_compute; reflexivity|].
  vm_compute. discriminate.
Qed.

(** C10, instance: the three best suggestions for "skan" on [SCAN_COMMANDS]. *)
Lemma getSuggestions_top_n_witness :
  (0 <= 3)%Z /\
  (let all := suggestion_scores (normalize (S_ "skan")) SCAN_COMMANDS in
   getSuggestions (S_ "skan") SCAN_COMMANDS 3 = map item (firstn (Z.to_nat 3) (sort_desc all)) /\
   length (getSuggestions (S_ "skan") SCAN_COMMANDS 3)
     = Nat.min (Z.to_nat 3) (length (flat_map aliases SCAN_COMMANDS)) /\
   Permutation (map item (sort_desc all)) (flat_map aliases SCAN_COMMANDS) /\
   Sorted desc (sort_desc all)).
Proof. split; [lia | apply getSuggestions_top_n; lia]. Defined.

(** ** C3 *)

Definition str_dec := list_eq_dec ascii_dec.

Lemma mem_spec (w : str) (l : list str) : mem w l = true <-> In w l.
Proof.
  unfold mem. rewrite existsb_exists. split.
  - intros (x & Hin & Hx). apply str_eqb_spec in Hx. subst. exact Hin.
  - intros Hin. exists w. split; [exact Hin | apply str_eqb_spec; reflexivity].
Qed.

Lemma count_occ_filter_not_mem (words aw : list str) (w : str) :
  count_occ str_dec (filter (fun x => negb (mem x aw)) words) w =
  if mem w aw then 0%nat else count_occ str_dec words w.
Proof.
  induction words as [|x words IH]; simpl.
  - destruct (mem w aw); reflexivity.
  - destruct (mem x aw) eqn:Ex; simpl.
    + rewrite IH. destruct (str_dec x w) as [<-|_]; [rewrite Ex; reflexivity | reflexivity].
    + destruct (str_dec x w) as [<-|Hne].
      * rewrite Ex. simpl. rewrite IH, Ex. reflexivity.
      * rewrite IH. reflexivity.
Qed.

(** C3 (as amended).  [parseComplexCommand] resolves the normalized input
    with [matchCommand] at threshold 0.65.  No match gives
    [{action: null, parameter: null, confidence: 0}].  On a match, a
    single-word input has parameter [null]; a multi-word input keeps the
    input words that are not words of the matched alias: every occurrence of
    a word of the alias is removed, the others all stay, in order, joined with
    single spaces, an empty remainder giving [null]. *)
Theorem parseComplexCommand_parameter (input : str) (cmds : list CommandDefinition) :
  let ni := normalize input in
  let words := split_ws ni in
  let r := parseComplexCommand input cmds in
  match matchCommand ni cmds (65 # 100) with
  | None => r = {| action := None; parameter := None; pc_confidence := 0 |}
  | Some am =>
      action r = Some (command_ am) /\ pc_confidence r = confidence am /\
      ((length words <= 1)%nat -> parameter r = None) /\
      ((1 < length words)%nat ->
       let actionWords := split_ws (toLowerCase (matchedPhrase am)) in
       let rest := filter (fun w => negb (mem w actionWords)) words in
       parameter r = (if join_space rest then None else Some (join_space rest)) /\
       forall w, count_occ str_dec rest w =
                 if mem w actionWords then 0%nat else count_occ str_dec words w)
  end.
Proof.
  intros ni words r. unfold r, parseComplexCommand. fold ni.
  destruct (matchCommand ni cmds (65 # 100)) as [am|]; [|reflexivity].
  fold words.
  destruct (Nat.ltb_spec 1 (length words)) as [Hlt|Hle].
  - split; [reflexivity|]. split; [reflexivity|]. split; [lia|].
    intros _. split.
    + simpl. destruct (join_space _); reflexivity.
    + intros w. apply count_occ_filter_not_mem.
  - split; [reflexivity|]. split; [reflexivity|]. split; [reflexivity | lia].
Qed.

(** C3, counterexample.  "call call bob" on [GLOBAL_COMMANDS] matches the
    alias "call" (a single word); both occurrences of "call" are removed, so
    the parameter is "bob", not "call bob". *)
Lemma parseComplexCommand_removes_every_occurrence :
  option_map matchedPhrase (matchCommand (S_ "call call bob") GLOBAL_COMMANDS (65 # 100))
    = Some (S_ "call") /\
  parameter (parseComplexCommand (S_ "call call bob") GLOBAL_COMMANDS) = Some (S_ "bob") /\
  parameter (parseComplexCommand (S_ "call call bob") GLOBAL_COMMANDS) <> Some (S_ "call bob").
Proof.
  split; [vm_compute; reflexivity|].
  split; [vm_compute; reflexivity|].
  vm_compute. discriminate.
Qed.

(** ** C7 *)

Lemma similarityScore_nil_l (a : str) : a <> [] -> similarityScore [] a == 0.
Proof.
  intros Ha. unfold similarityScore. simpl length.
  destruct a as [|x a']; [congruence|]. simpl Nat.max. cbn [Nat.eqb].
  rewrite levenshteinDistance_lev. simpl rev at 1. rewrite lev_nil_l, length_rev, length_toLowerCase.
  assert (Hq : ~ inject_Z (Z.of_nat (length (x :: a'))) == 0).
  { change 0 with (inject_Z 0). rewrite inject_Z_injective. simpl. lia. }
  change (S (length a')) with (length (x :: a')).
  generalize dependent (inject_Z (Z.of_nat (length (x :: a')))). intros q Hq.
  field. exact Hq.
Qed.

Lemma toLowerCase_nonempty (s : str) : s <> [] -> toLowerCase s <> [].
Proof. destruct s; [congruence | discriminate]. Qed.

Lemma replace_initial_nonempty (c : ascii) (rep : str) (pw : bool) (s : str) :
  rep <> [] -> s <> [] -> replace_initial c rep pw s <> [].
Proof.
  intros Hr Hs. destruct s as [|x s']; [congruence|]. simpl.
  destruct (Ascii.eqb x c && negb pw); [|discriminate].
  destruct rep; [congruence | discriminate].
Qed.

Lemma replace_th_nonempty (s : str) : s <> [] -> replace_th s <> [].
Proof.
  intros Hs. destruct s as [|x [|y s'']]; [congruence | discriminate|]. simpl.
  destruct (Ascii.eqb x "t" && Ascii.eqb y "h"); discriminate.
Qed.

Lemma replace_run_nonempty (c : ascii) (rep : str) (s : str) :
  rep <> [] -> s <> [] -> replace_run c rep false s <> [].
Proof.
  intros Hr Hs. destruct s as [|x s']; [congruence|]. simpl.
  destruct (Ascii.eqb x c); [|discriminate].
  destruct rep; [congruence | discriminate].
Qed.

Lemma normalizePhonetic_nonempty (s : str) : s <> [] -> normalizePhonetic s <> [].
Proof.
  intros Hs. unfold normalizePhonetic.
  repeat (apply replace_run_nonempty; [discriminate|]).
  repeat (apply replace_initial_nonempty; [discriminate|]).
  apply replace_th_nonempty.
  repeat (apply replace_initial_nonempty; [discriminate|]).
  apply toLowerCase_nonempty, Hs.
Qed.

Lemma fuzzyMatchPhonetic_nil_l (a : str) (t : Q) : a <> [] -> score (fuzzyMatchPhonetic [] a t) == 0.
Proof.
  intros Ha. unfold fuzzyMatchPhonetic.
  destruct (Qle_bool t (similarityScore [] a)); [apply similarityScore_nil_l, Ha|].
  simpl score. change (normalizePhonetic []) with (@nil ascii).
  destruct (js_max_cases (similarityScore [] a) (similarityScore [] (normalizePhonetic a))) as [-> | ->].
  - apply similarityScore_nil_l, Ha.
  - apply similarityScore_nil_l, normalizePhonetic_nonempty, Ha.
Qed.

Lemma step_noop (b : bool) (cmd : CommandDefinition) (sc : Q) (alias : str) :
  sc == 0 ->
  (if b && Qltb (snd (@None CommandMatch, 0)) sc then (Some (hit cmd sc alias), sc)
   else (None, 0)) = (None, 0).
Proof.
  intros Hsc. simpl snd.
  assert (Hf : Qltb 0 sc = false).
  { apply negb_false_iff, Qle_bool_iff. rewrite Hsc. apply Qle_refl. }
  rewrite Hf, andb_false_r. reflexivity.
Qed.

(** The aliases of a catalog are phrases of non-empty words. *)
Definition words_nonempty (cmds : list CommandDefinition) : Prop :=
  forall cmd alias w, In cmd cmds -> In alias (aliases cmd) ->
                      In w (split_ws (toLowerCase alias)) -> w <> [].

Lemma alias_nonempty (alias : str) :
  (forall w, In w (split_ws (toLowerCase alias)) -> w <> []) -> alias <> [].
Proof. intros H ->. apply (H []); [left; reflexivity | reflexivity]. Qed.

Lemma containsFuzzy_nil_l (ts : list str) (t : Q) :
  (forall tg, In tg ts -> tg <> []) -> cf_score (containsFuzzy [] ts t) == 0.
Proof.
  intros Hts. unfold containsFuzzy. change (split_ws (toLowerCase [])) with [@nil ascii].
  destruct (scan_words [[]] ts t) as [[tg sc]|] eqn:E; simpl; [|apply Qeq_refl].
  apply scan_words_some in E. destruct E as (w & [<- | []] & Hin & -> & _).
  apply similarityScore_nil_l, toLowerCase_nonempty, Hts, Hin.
Qed.

Lemma contains_hit_nil (alias : str) :
  (forall w, In w (split_ws (toLowerCase alias)) -> w <> []) -> contains_hit [] alias = false.
Proof.
  intros H. unfold contains_hit. change (split_ws []) with [@nil ascii].
  assert (Hm : mem [] (split_ws (toLowerCase alias)) = false).
  { destruct (mem [] _) eqn:E; [|reflexivity].
    apply mem_spec in E. exfalso. exact (H [] E eq_refl). }
  cbn [filter]. rewrite Hm. cbn [length Z.of_nat].
  assert (Hq : forall y, Qltb (1 # 2) (inject_Z 0 / y) = false).
  { intros y. apply negb_false_iff, Qle_bool_iff.
    apply Qle_trans with 0; [|discriminate].
    unfold Qdiv. rewrite Qmult_0_l. apply Qle_refl. }
  rewrite Hq, andb_false_r. reflexivity.
Qed.

Lemma contains_stage_nil (cmds : list CommandDefinition) :
  words_nonempty cmds -> contains_stage [] cmds = None.
Proof.
  intros Hw. induction cmds as [|c cmds IH]; simpl; [reflexivity|].
  assert (Hc : contains_aliases [] c (aliases c) = None).
  { assert (Ha : forall alias, In alias (aliases c) ->
                 forall w, In w (split_ws (toLowerCase alias)) -> w <> [])
      by (intros alias Hin w Hw'; apply (Hw c alias w (or_introl eq_refl) Hin Hw')).
    induction (aliases c) as [|a als IHa]; simpl; [reflexivity|].
    rewrite contains_hit_nil by (apply Ha; left; reflexivity).
    apply IHa. intros alias Hin. apply Ha. right. exact Hin. }
  rewrite Hc. apply IH.
  intros cmd alias w Hin. apply Hw. right. exact Hin.
Qed.

Lemma fuzzy_stage_nil (cmds : list CommandDefinition) (t : Q) :
  words_nonempty cmds -> fuzzy_stage [] cmds t (None, 0) = (None, 0).
Proof.
  intros Hw. induction cmds as [|c cmds IH]; cbn [fuzzy_stage]; [reflexivity|].
  assert (Hc : fuzzy_aliases [] c (aliases c) t (None, 0) = (None, 0)).
  { assert (Ha : forall alias, In alias (aliases c) -> alias <> [])
      by (intros alias Hin; apply alias_nonempty; intros w Hw';
          apply (Hw c alias w (or_introl eq_refl) Hin Hw')).
    induction (aliases c) as [|a als IHa]; cbn [fuzzy_aliases]; [reflexivity|].
    rewrite step_noop by (apply fuzzyMatchPhonetic_nil_l, Ha; left; reflexivity).
    apply IHa. intros alias Hin. apply Ha. right. exact Hin. }
  rewrite Hc. apply IH.
  intros cmd alias w Hin. apply Hw. right. exact Hin.
Qed.

Lemma word_stage_nil (cmds : list CommandDefinition) (t : Q) :
  words_nonempty cmds -> word_stage [[]] cmds t (None, 0) = (None, 0).
Proof.
  intros Hw. induction cmds as [|c cmds IH]; cbn [word_stage]; [reflexivity|].
  assert (Hc : word_aliases [[]] c (aliases c) t (None, 0) = (None, 0)).
  { assert (Ha : forall alias, In alias (aliases c) ->
                 forall w, In w (split_ws (toLowerCase alias)) -> w <> [])
      by (intros alias Hin w Hw'; apply (Hw c alias w (or_introl eq_refl) Hin Hw')).
    induction (aliases c) as [|a als IHa]; cbn [word_aliases]; [reflexivity|].
    assert (Hi : word_inputs c a (split_ws (toLowerCase a)) [[]] t (None, 0) = (None, 0)).
    { cbn [word_inputs]. rewrite step_noop; [reflexivity|].
      apply containsFuzzy_nil_l. intros tg Hin. apply (Ha a); [left; reflexivity | exact Hin]. }
    rewrite Hi. apply IHa. intros alias Hin. apply Ha. right. exact Hin. }
  rewrite Hc. apply IH.
  intros cmd alias w Hin. apply Hw. right. exact Hin.
Qed.

Lemma matchCommand_nil (cmds : list CommandDefinition) (t : Q) :
  words_nonempty cmds -> matchCommand [] cmds t = None.
Proof.
  intros Hw. unfold matchCommand. change (normalize []) with (@nil ascii).
  assert (He : exact_stage [] cmds = None).
  { apply exact_stage_none. intros cmd alias Hc Ha Heq.
    apply (Hw cmd alias [] Hc Ha); [|reflexivity].
    rewrite <- Heq. left. reflexivity. }
  rewrite He, contains_stage_nil, fuzzy_stage_nil by exact Hw.
  simpl fst. change (split_ws []) with [@nil ascii].
  rewrite word_stage_nil by exact Hw. reflexivity.
Qed.

Lemma findBestMatch_nil_score (options : list str) (t : Q) :
  (forall o, In o options -> o <> []) -> bm_score (findBestMatch [] options t) == 0.
Proof.
  intros Ho. unfold findBestMatch. change (trim (toLowerCase [])) with (@nil ascii).
  pose proof (sort_desc_perm (score_options [] options)) as Hperm.
  destruct (sort_desc (score_options [] options)) as [|b rest]; [apply Qeq_refl|].
  destruct (Qle_bool t (s_score b)); simpl; [|apply Qeq_refl].
  assert (Hb : In b (score_options [] options)) by (apply (Permutation_in _ Hperm); left; reflexivity).
  unfold score_options in Hb. apply in_map_iff in Hb. destruct Hb as (o & <- & Hin).
  simpl. apply similarityScore_nil_l, toLowerCase_nonempty, Ho, Hin.
Qed.

(** C7.  The matching functions are total (every definition here is a
    terminating function on all inputs) and answer empty data with a null or
    zero-confidence result: on an empty catalog, option list or target list
    each function returns its null/zero/empty result; on the empty input,
    against aliases, options and targets made of non-empty words,
    [matchCommand] and [parseComplexCommand] find nothing and the scores of
    [findBestMatch], [matchContactName], [containsFuzzy],
    [fuzzyMatchPhonetic] and of every suggestion are 0; and
    [distance("", "") = 0], [similarity("", "") = 1]. *)
Theorem matching_core_empty_inputs (cmds : list CommandDefinition) (options : list str)
  (t : Q) (n : Z)
  (Hcmds : words_nonempty cmds) (Hopts : forall o, In o options -> o <> []) :
  (forall s, matchCommand s [] t = None) /\
  (forall s, getSuggestions s [] n = []) /\
  (forall s, parseComplexCommand s [] = {| action := None; parameter := None; pc_confidence := 0 |}) /\
  (forall s, findBestMatch s [] t = {| bm_match := None; bm_score := 0; allMatches := [] |}) /\
  (forall s, containsFuzzy s [] t = {| found := false; matchedWord := None; cf_score := 0 |}) /\
  (forall s, matchContactName s [] t = {| name := None; cn_confidence := 0 |}) /\
  matchCommand [] cmds t = None /\
  parseComplexCommand [] cmds = {| action := None; parameter := None; pc_confidence := 0 |} /\
  bm_score (findBestMatch [] options t) == 0 /\
  cn_confidence (matchContactName [] options t) == 0 /\
  cf_score (containsFuzzy [] options t) == 0 /\
  (forall a, a <> [] -> score (fuzzyMatchPhonetic [] a t) == 0) /\
  (forall sg, In sg (suggestion_scores [] cmds) -> s_score sg == 0) /\
  levenshteinDistance [] [] = 0%nat /\ similarityScore [] [] = 1.
Proof.
  assert (Hempty : forall s u, matchCommand s [] u = None).
  { intros s u. unfold matchCommand. cbn [exact_stage contains_stage fuzzy_stage word_stage fst].
    reflexivity. }
  split; [intros s; apply Hempty|].
  split; [intros s; unfold getSuggestions, slice0; simpl; rewrite firstn_nil; reflexivity|].
  split; [intros s; unfold parseComplexCommand; rewrite Hempty; reflexivity|].
  split; [intros s; reflexivity|].
  split.
  { intros s. unfold containsFuzzy.
    assert (Hs : forall ws, scan_words ws [] t = None)
      by (induction ws as [|w ws IH]; simpl; [reflexivity | exact IH]).
    rewrite Hs. reflexivity. }
  split; [intros s; reflexivity|].
  split; [apply matchCommand_nil, Hcmds|].
  split; [unfold parseComplexCommand; change (normalize []) with (@nil ascii);
          rewrite matchCommand_nil by exact Hcmds; reflexivity|].
  split; [apply findBestMatch_nil_score, Hopts|].
  split; [apply findBestMatch_nil_score, Hopts|].
  split; [apply containsFuzzy_nil_l, Hopts|].
  split; [intros a Ha; apply fuzzyMatchPhonetic_nil_l, Ha|].
  split.
  { intros sg Hin. unfold suggestion_scores in Hin. apply in_flat_map in Hin.
    destruct Hin as (cmd & Hc & Hin). apply in_map_iff in Hin. destruct Hin as (alias & <- & Ha).
    apply fuzzyMatchPhonetic_nil_l, alias_nonempty.
    intros w Hw. exact (Hcmds cmd alias w Hc Ha Hw). }
  split; reflexivity.
Qed.

(** C7, instance: the shipped [GLOBAL_COMMANDS] and two contact names. *)
Lemma matching_core_empty_inputs_witness :
  words_nonempty GLOBAL_COMMANDS /\
  (forall o, In o [S_ "UWIMANA Lucy"; S_ "HABIMANA Bill"] -> o <> []) /\
  matchCommand [] GLOBAL_COMMANDS (65 # 100) = None /\
  cn_confidence (matchContactName [] [S_ "UWIMANA Lucy"; S_ "HABIMANA Bill"] (6 # 10)) == 0.
Proof.
  assert (Hw : words_nonempty GLOBAL_COMMANDS).
  { intros cmd alias w Hc Ha Hin.
    apply (proj1 (Forall_forall (fun w => w <> [])
      (flat_map (fun alias => split_ws (toLowerCase alias)) (flat_map aliases GLOBAL_COMMANDS))));
      [| apply in_flat_map; exists alias; split; [apply in_flat_map; exists cmd; auto | exact Hin]].
    vm_compute. repeat constructor; discriminate. }
  assert (Ho : forall o, In o [S_ "UWIMANA Lucy"; S_ "HABIMANA Bill"] -> o <> [])
    by (intros o [<- | [<- | []]]; discriminate).
  destruct (matching_core_empty_inputs GLOBAL_COMMANDS [S_ "UWIMANA Lucy"; S_ "HABIMANA Bill"]
              (65 # 100) 3 Hw Ho) as (_ & _ & _ & _ & _ & _ & Hm & _).
  destruct (matching_core_empty_inputs GLOBAL_COMMANDS [S_ "UWIMANA Lucy"; S_ "HABIMANA Bill"]
              (6 # 10) 3 Hw Ho) as (_ & _ & _ & _ & _ & _ & _ & _ & _ & Hc & _).
  split; [exact Hw|]. split; [exact Ho|]. split; [exact Hm | exact Hc].
Defined.

(* ================================================================== *)
(** * Further properties of the code *)

(** ** Edit distance *)

Lemma lev_refl (s : str) : lev s s = 0%nat.
Proof.
  induction s as [|x s IH]; [reflexivity|].
  rewrite lev_cons, IH. unfold cost. rewrite Ascii.eqb_refl. lia.
Qed.

Lemma lev_zero (s t : str) : lev s t = 0%nat -> s = t.
Proof.
  revert t. induction s as [|x s IH]; intros t H.
  - rewrite lev_nil_l in H. destruct t; [reflexivity | discriminate].
  - destruct t as [|y t]; [rewrite lev_nil_r in H; discriminate|].
    rewrite lev_cons in H. unfold cost in H.
    destruct (Ascii.eqb_spec x y) as [<-|]; [|lia].
    f_equal. apply IH. lia.
Qed.

Lemma lev_ge_diff (s t : str) :
  (length s - length t <= lev s t)%nat /\ (length t - length s <= lev s t)%nat.
Proof.
  revert t. induction s as [|x s IHs]; intros t.
  - rewrite lev_nil_l. simpl. lia.
  - induction t as [|y t IHt].
    + rewrite lev_nil_r. simpl. lia.
    + rewrite lev_cons. pose proof (IHs (y :: t)). pose proof (IHs t).
      simpl length in *. lia.
Qed.

Lemma lower_char_idem (c : ascii) : lower_char (lower_char c) = lower_char c.
Proof. destruct c as [[] [] [] [] [] [] [] []]; reflexivity. Qed.

Lemma toLowerCase_idem (s : str) : toLowerCase (toLowerCase s) = toLowerCase s.
Proof. unfold toLowerCase. rewrite map_map. apply map_ext, lower_char_idem. Qed.

Lemma is_ws_lower_char (c : ascii) : is_ws (lower_char c) = is_ws c.
Proof. destruct c as [[] [] [] [] [] [] [] []]; reflexivity. Qed.

Lemma drop_ws_lower (s : str) : drop_ws (toLowerCase s) = toLowerCase (drop_ws s).
Proof.
  induction s as [|c s IH]; [reflexivity|].
  simpl. rewrite is_ws_lower_char. destruct (is_ws c); [exact IH | reflexivity].
Qed.

Lemma trim_lower (s : str) : trim (toLowerCase s) = toLowerCase (trim s).
Proof.
  unfold trim, toLowerCase. rewrite drop_ws_lower. unfold toLowerCase.
  rewrite <- map_rev. rewrite drop_ws_lower. unfold toLowerCase. rewrite map_rev. reflexivity.
Qed.

Lemma drop_ws_idem (s : str) : drop_ws (drop_ws s) = drop_ws s.
Proof.
  induction s as [|c s IH]; [reflexivity|].
  simpl. destruct (is_ws c) eqn:E; [exact IH | simpl; rewrite E; reflexivity].
Qed.

Lemma drop_ws_suffix (s : str) : exists p, s = p ++ drop_ws s.
Proof.
  induction s as [|c s IH]; [exists []; reflexivity|].
  simpl. destruct (is_ws c).
  - destruct IH as [p Hp]. exists (c :: p). simpl. f_equal. exact Hp.
  - exists []. reflexivity.
Qed.

(** A string without leading whitespace keeps that property in every prefix. *)
Lemma drop_ws_prefix (v w : str) : drop_ws (v ++ w) = v ++ w -> drop_ws v = v.
Proof.
  destruct v as [|c v]; [reflexivity|]. simpl. intros H.
  destruct (is_ws c) eqn:E; [|reflexivity].
  exfalso. destruct (drop_ws_suffix (v ++ w)) as [p Hp].
  assert (Hl : length (v ++ w) = (length p + length (drop_ws (v ++ w)))%nat)
    by (rewrite Hp at 1; apply length_app).
  rewrite H in Hl. simpl in Hl. lia.
Qed.

Lemma trim_idem (s : str) : trim (trim s) = trim s.
Proof.
  unfold trim. set (u := drop_ws s).
  assert (Hu : drop_ws u = u) by apply drop_ws_idem.
  destruct (drop_ws_suffix (rev u)) as [p Hp].
  set (d := drop_ws (rev u)) in *.
  assert (Hv : drop_ws (rev d) = rev d).
  { apply (drop_ws_prefix (rev d) (rev p)).
    rewrite <- rev_app_distr, <- Hp, rev_involutive. exact Hu. }
  rewrite Hv, rev_involutive. unfold d. rewrite drop_ws_idem. reflexivity.
Qed.

Lemma normalize_lower (s : str) : normalize (toLowerCase s) = normalize s.
Proof. unfold normalize. rewrite toLowerCase_idem. reflexivity. Qed.

Lemma normalize_trim (s : str) : normalize (trim s) = normalize s.
Proof. unfold normalize. rewrite <- trim_lower, trim_idem. reflexivity. Qed.

Lemma normalize_idem (s : str) : normalize (normalize s) = normalize s.
Proof. unfold normalize at 2. rewrite normalize_trim, normalize_lower. reflexivity. Qed.

(** X1.  The edit distance is zero exactly on equal strings. *)
Theorem levenshteinDistance_zero_iff (a b : str) :
  levenshteinDistance a b = 0%nat <-> a = b.
Proof.
  rewrite levenshteinDistance_lev. split.
  - intros H. apply lev_zero in H. rewrite <- (rev_involutive a), H, rev_involutive. reflexivity.
  - intros ->. apply lev_refl.
Qed.

(** X2.  The edit distance lies between the difference of the lengths and
    the larger length; against the empty string it is the other length. *)
Theorem levenshteinDistance_length_bounds (a b : str) :
  (length a - length b <= levenshteinDistance a b)%nat /\
  (length b - length a <= levenshteinDistance a b)%nat /\
  (levenshteinDistance a b <= Nat.max (length a) (length b))%nat /\
  levenshteinDistance a [] = length a /\ levenshteinDistance [] b = length b.
Proof.
  rewrite !levenshteinDistance_lev.
  destruct (lev_ge_diff (rev a) (rev b)) as [H1 H2]. rewrite !length_rev in H1, H2.
  pose proof (lev_le_max (rev a) (rev b)) as H3. rewrite !length_rev in H3.
  split; [exact H1|]. split; [exact H2|]. split; [exact H3|].
  split; simpl rev; [rewrite lev_nil_r | rewrite lev_nil_l]; apply length_rev.
Qed.

(** ** Similarity scores *)

Lemma inject_nat_pos (n : nat) : (0 < n)%nat -> 0 < inject_Z (Z.of_nat n).
Proof. intros H. change 0 with (inject_Z 0). rewrite <- Zlt_Qlt. lia. Qed.


(** X3.  Two strings score exactly 1 when, and only when, they are equal
    up to the case of their letters. *)
Theorem similarityScore_one_iff (a b : str) :
  similarityScore a b == 1 <-> toLowerCase a = toLowerCase b.
Proof.
  unfold similarityScore.
  destruct (Nat.eqb_spec (Nat.max (length a) (length b)) 0%nat) as [Hm|Hm].
  - pose proof (Nat.le_max_l (length a) (length b)). pose proof (Nat.le_max_r (length a) (length b)).
    destruct a; [|simpl in *; lia]. destruct b; [|simpl in *; lia].
    split; reflexivity.
  - rewrite <- levenshteinDistance_zero_iff.
    set (d := levenshteinDistance (toLowerCase a) (toLowerCase b)).
    set (m := Nat.max (length a) (length b)) in *.
    assert (Hm0 : 0 < inject_Z (Z.of_nat m)) by (apply inject_nat_pos; lia).
    split.
    + intros H. destruct (Nat.eq_dec d 0%nat) as [|Hd]; [assumption|exfalso].
      assert (Hpos : 0 < inject_Z (Z.of_nat d) / inject_Z (Z.of_nat m)).
      { apply Qlt_shift_div_l; [exact Hm0|]. rewrite Qmult_0_l. apply inject_nat_pos. lia. }
      lra.
    + intros ->. change (inject_Z (Z.of_nat 0)) with 0. unfold Qdiv. rewrite Qmult_0_l. lra.
Qed.

(** X4.  The similarity score is symmetric. *)
Theorem similarityScore_symmetric (a b : str) : similarityScore a b = similarityScore b a.
Proof.
  unfold similarityScore. rewrite Nat.max_comm, !levenshteinDistance_lev, lev_sym.
  reflexivity.
Qed.



(** X7.  The [match] flag of [fuzzyMatchPhonetic] says exactly whether the
    returned score reaches the threshold. *)
Theorem fuzzyMatchPhonetic_match_iff (a b : str) (t : Q) :
  match_ (fuzzyMatchPhonetic a b t) = Qle_bool t (score (fuzzyMatchPhonetic a b t)).
Proof.
  unfold fuzzyMatchPhonetic.
  destruct (Qle_bool t (similarityScore a b)) eqn:E; [simpl; symmetry; exact E|].
  simpl. unfold js_max.
  set (e := similarityScore a b) in *.
  set (p := similarityScore (normalizePhonetic a) (normalizePhonetic b)).
  destruct (Qltb e p) eqn:Ep; [reflexivity|].
  apply Qltb_false in Ep. rewrite E.
  destruct (Qle_bool t p) eqn:Et; [|reflexivity].
  apply Qle_bool_iff in Et. assert (Hte : t <= e) by lra.
  apply Qle_bool_iff in Hte. congruence.
Qed.



(** ** Phonetic normalization collapses vowel runs *)

(** [dup_rel v x y]: [x] is [y] with one occurrence of [v] doubled. *)
Definition dup_rel (v : ascii) (x y : str) : Prop :=
  exists p s, x = p ++ v :: v :: s /\ y = p ++ v :: s.

Lemma replace_initial_app_other (c v : ascii) (rep : str) (pw : bool) (p s : str) :
  Ascii.eqb v c = false -> is_word v = true ->
  replace_initial c rep pw (p ++ v :: s) = replace_initial c rep pw p ++ v :: replace_initial c rep true s.
Proof.
  intros Hvc Hw. revert pw. induction p as [|x p IH]; intros pw; simpl.
  - rewrite Hvc, Hw. reflexivity.
  - rewrite IH, app_assoc. reflexivity.
Qed.

Lemma replace_run_app_other (c v : ascii) (rep : str) (b : bool) (p s : str) :
  Ascii.eqb v c = false ->
  replace_run c rep b (p ++ v :: s) = replace_run c rep b p ++ v :: replace_run c rep false s.
Proof.
  intros Hvc. revert b. induction p as [|x p IH]; intros b; simpl.
  - rewrite Hvc. reflexivity.
  - destruct (Ascii.eqb x c); simpl; rewrite IH; [rewrite app_assoc|]; reflexivity.
Qed.

Lemma replace_run_dup (v : ascii) (rep : str) (b : bool) (p s : str) :
  replace_run v rep b (p ++ v :: v :: s) = replace_run v rep b (p ++ v :: s).
Proof.
  revert b. induction p as [|x p IH]; intros b; simpl.
  - rewrite Ascii.eqb_refl. reflexivity.
  - destruct (Ascii.eqb x v); rewrite IH; reflexivity.
Qed.

Lemma replace_th_cons2 (x y : ascii) (r : str) :
  replace_th (x :: y :: r) =
  if Ascii.eqb x "t" && Ascii.eqb y "h" then S_ "[thd]" ++ replace_th r
  else x :: replace_th (y :: r).
Proof. reflexivity. Qed.

Lemma replace_th_cons_other (v : ascii) (s : str) :
  Ascii.eqb v "t" = false -> replace_th (v :: s) = v :: replace_th s.
Proof. intros Ht. destruct s as [|y s]; [reflexivity|]. simpl. rewrite Ht. reflexivity. Qed.

Lemma replace_th_app_other (v : ascii) (p s : str) :
  Ascii.eqb v "t" = false -> Ascii.eqb v "h" = false ->
  replace_th (p ++ v :: s) = replace_th p ++ v :: replace_th s.
Proof.
  intros Ht Hh.
  assert (Hv : replace_th (v :: s) = v :: replace_th s).
  { destruct s as [|y s]; [reflexivity|]. simpl. rewrite Ht. reflexivity. }
  remember (length p) as n eqn:Hn. revert p Hn.
  induction n as [n IH] using lt_wf_ind. intros p Hn.
  destruct p as [|x [|y p]].
  - exact Hv.
  - change ([x] ++ v :: s) with (x :: v :: s).
    transitivity (x :: replace_th (v :: s)).
    { simpl. rewrite Hh, andb_false_r. reflexivity. }
    rewrite Hv. reflexivity.
  - change ((x :: y :: p) ++ v :: s) with (x :: y :: (p ++ v :: s)).
    rewrite !replace_th_cons2. destruct (Ascii.eqb x "t" && Ascii.eqb y "h").
    + rewrite (IH (length p) ltac:(simpl in Hn; lia) p eq_refl). apply app_assoc.
    + change (y :: p ++ v :: s) with ((y :: p) ++ v :: s).
      rewrite (IH (length (y :: p)) ltac:(simpl in Hn |- *; lia) (y :: p) eq_refl).
      reflexivity.
Qed.

Lemma dup_lower (v : ascii) (x y : str) :
  lower_char v = v -> dup_rel v x y -> dup_rel v (toLowerCase x) (toLowerCase y).
Proof.
  intros Hv (p & s & -> & ->). exists (toLowerCase p), (toLowerCase s).
  unfold toLowerCase. rewrite !map_app. simpl. rewrite Hv. split; reflexivity.
Qed.

Lemma dup_initial (v c : ascii) (rep : str) (x y : str) :
  Ascii.eqb v c = false -> is_word v = true -> dup_rel v x y ->
  dup_rel v (replace_initial c rep false x) (replace_initial c rep false y).
Proof.
  intros Hvc Hw (p & s & -> & ->).
  exists (replace_initial c rep false p), (replace_initial c rep true s).
  rewrite !replace_initial_app_other by assumption. simpl. rewrite Hvc, Hw. split; reflexivity.
Qed.

Lemma dup_th (v : ascii) (x y : str) :
  Ascii.eqb v "t" = false -> Ascii.eqb v "h" = false -> dup_rel v x y ->
  dup_rel v (replace_th x) (replace_th y).
Proof.
  intros Ht Hh (p & s & -> & ->). exists (replace_th p), (replace_th s).
  rewrite !replace_th_app_other by assumption.
  rewrite replace_th_cons_other by assumption. split; reflexivity.
Qed.

Lemma dup_run_other (v c : ascii) (rep : str) (x y : str) :
  Ascii.eqb v c = false -> dup_rel v x y ->
  dup_rel v (replace_run c rep false x) (replace_run c rep false y).
Proof.
  intros Hvc (p & s & -> & ->).
  exists (replace_run c rep false p), (replace_run c rep false s).
  rewrite !replace_run_app_other by assumption.
  simpl. rewrite Hvc. split; reflexivity.
Qed.

Lemma dup_run_same (v : ascii) (rep : str) (x y : str) :
  dup_rel v x y -> replace_run v rep false x = replace_run v rep false y.
Proof. intros (p & s & -> & ->). apply replace_run_dup. Qed.

Ltac dup_passes :=
  repeat first
    [ assumption
    | apply dup_run_other; [reflexivity|]
    | apply dup_initial; [reflexivity | reflexivity|]
    | apply dup_th; [reflexivity | reflexivity|]
    | apply dup_lower; [reflexivity|] ].

(** X9.  In [normalizePhonetic] a run of a vowel [a], [e], [i], [o] or [u]
    counts as one occurrence: doubling a vowel anywhere in the text does not
    change its normalized form (so "see" and "seeeee" normalize alike). *)
Theorem normalizePhonetic_vowel_run (v : ascii) (p s : str) :
  In v ["a"; "e"; "i"; "o"; "u"]%char ->
  normalizePhonetic (p ++ v :: v :: s) = normalizePhonetic (p ++ v :: s).
Proof.
  intros Hv. assert (H : dup_rel v (p ++ v :: v :: s) (p ++ v :: s)) by (exists p, s; auto).
  generalize dependent (p ++ v :: s). generalize dependent (p ++ v :: v :: s).
  intros x y H. unfold normalizePhonetic. cbv zeta.
  destruct Hv as [<- | [<- | [<- | [<- | [<- | []]]]]].
  - do 4 f_equal. apply dup_run_same. dup_passes.
  - do 3 f_equal. apply dup_run_same. dup_passes.
  - do 2 f_equal. apply dup_run_same. dup_passes.
  - f_equal. apply dup_run_same. dup_passes.
  - apply dup_run_same. dup_passes.
Qed.

Lemma normalizePhonetic_vowel_run_witness :
  In "e"%char ["a"; "e"; "i"; "o"; "u"]%char /\
  normalizePhonetic (S_ "s" ++ "e"%char :: "e"%char :: S_ "e") = normalizePhonetic (S_ "s" ++ "e"%char :: S_ "e").
Proof.
  split; [simpl; tauto|].
  apply normalizePhonetic_vowel_run. simpl. tauto.
Defined.

(** ** Results come from the catalog *)

Definition from_catalog (cmds : list CommandDefinition) (m : CommandMatch) : Prop :=
  exists cmd alias, In cmd cmds /\ In alias (aliases cmd) /\ m = hit cmd (confidence m) alias.

Definition best_from (cmds : list CommandDefinition) (st : Best) : Prop :=
  match fst st with Some m => from_catalog cmds m | None => True end.

Lemma best_from_step (cmds : list CommandDefinition) (b : bool) (cmd : CommandDefinition)
  (sc : Q) (alias : str) (st : Best) :
  In cmd cmds -> In alias (aliases cmd) -> best_from cmds st ->
  best_from cmds (if b && Qltb (snd st) sc then (Some (hit cmd sc alias), sc) else st).
Proof.
  intros Hc Ha Hst. destruct (b && Qltb (snd st) sc); [|exact Hst].
  exists cmd, alias. auto.
Qed.

Lemma fuzzy_aliases_from (cmds : list CommandDefinition) ni c als t st :
  In c cmds -> incl als (aliases c) -> best_from cmds st ->
  best_from cmds (fuzzy_aliases ni c als t st).
Proof.
  intros Hc. revert st. induction als as [|a als IH]; intros st Hal Hst; simpl; [exact Hst|].
  apply IH; [intros x Hx; apply Hal; right; exact Hx|].
  apply best_from_step; [exact Hc | apply Hal; left; reflexivity | exact Hst].
Qed.

Lemma fuzzy_stage_from (cmds cmds' : list CommandDefinition) ni t st :
  incl cmds' cmds -> best_from cmds st -> best_from cmds (fuzzy_stage ni cmds' t st).
Proof.
  revert st. induction cmds' as [|c cmds' IH]; intros st Hi Hst; simpl; [exact Hst|].
  apply IH; [intros x Hx; apply Hi; right; exact Hx|].
  apply fuzzy_aliases_from; [apply Hi; left; reflexivity | apply incl_refl | exact Hst].
Qed.

Lemma word_inputs_from (cmds : list CommandDefinition) c alias aws iws t st :
  In c cmds -> In alias (aliases c) -> best_from cmds st ->
  best_from cmds (word_inputs c alias aws iws t st).
Proof.
  intros Hc Ha. revert st. induction iws as [|w iws IH]; intros st Hst; simpl; [exact Hst|].
  apply IH, best_from_step; assumption.
Qed.

Lemma word_aliases_from (cmds : list CommandDefinition) iws c als t st :
  In c cmds -> incl als (aliases c) -> best_from cmds st ->
  best_from cmds (word_aliases iws c als t st).
Proof.
  intros Hc. revert st. induction als as [|a als IH]; intros st Hal Hst; simpl; [exact Hst|].
  apply IH; [intros x Hx; apply Hal; right; exact Hx|].
  apply word_inputs_from; [exact Hc | apply Hal; left; reflexivity | exact Hst].
Qed.

Lemma word_stage_from (cmds cmds' : list CommandDefinition) iws t st :
  incl cmds' cmds -> best_from cmds st -> best_from cmds (word_stage iws cmds' t st).
Proof.
  revert st. induction cmds' as [|c cmds' IH]; intros st Hi Hst; simpl; [exact Hst|].
  apply IH; [intros x Hx; apply Hi; right; exact Hx|].
  apply word_aliases_from; [apply Hi; left; reflexivity | apply incl_refl | exact Hst].
Qed.

Lemma contains_aliases_from (ni : str) (c : CommandDefinition) (als : list str) (m : CommandMatch) :
  contains_aliases ni c als = Some m -> exists alias, In alias als /\ m = hit c (9 # 10) alias.
Proof.
  induction als as [|a als IH]; simpl; [discriminate|].
  destruct (contains_hit ni a).
  - intros [= <-]. exists a. auto.
  - intros H. destruct (IH H) as (alias & ? & ?). exists alias. auto.
Qed.

Lemma contains_stage_from (ni : str) (cmds : list CommandDefinition) (m : CommandMatch) :
  contains_stage ni cmds = Some m -> from_catalog cmds m.
Proof.
  induction cmds as [|c cmds IH]; simpl; [discriminate|].
  destruct (contains_aliases ni c (aliases c)) as [m'|] eqn:E.
  - intros [= <-]. destruct (contains_aliases_from _ _ _ _ E) as (alias & Ha & ->).
    exists c, alias. simpl. auto.
  - intros H. destruct (IH H) as (cmd & alias & ? & ? & ?). exists cmd, alias.
    split; [right|]; auto.
Qed.

Lemma matchCommand_from (input : str) (cmds : list CommandDefinition) (t : Q) (m : CommandMatch) :
  matchCommand input cmds t = Some m -> from_catalog cmds m.
Proof.
  unfold matchCommand.
  destruct (exact_stage (normalize input) cmds) as [m1|] eqn:E1.
  { intros [= <-]. destruct (exact_stage_some _ _ _ E1) as (cmd & alias & Hc & Ha & _ & ->).
    exists cmd, alias. auto. }
  destruct (contains_stage (normalize input) cmds) as [m2|] eqn:E2.
  { intros [= <-]. eapply contains_stage_from; eauto. }
  pose proof (fuzzy_stage_from cmds cmds (normalize input) t (None, 0) (incl_refl _) I) as H3.
  destruct (fst (fuzzy_stage (normalize input) cmds t (None, 0))) as [m3|] eqn:E3.
  { intros [= <-]. unfold best_from in H3. rewrite E3 in H3. exact H3. }
  intros H4. pose proof (word_stage_from cmds cmds (split_ws (normalize input)) t _ (incl_refl _) H3) as H.
  unfold best_from in H. rewrite H4 in H. exact H.
Qed.

(** X10.  [matchCommand] only returns a command of the catalog it is given,
    reporting as matched phrase one of that command's aliases; the action of
    [parseComplexCommand] is likewise a command of its catalog. *)
Theorem matchCommand_result_in_catalog (input : str) (cmds : list CommandDefinition) (t : Q) :
  (forall m, matchCommand input cmds t = Some m ->
   exists cmd, In cmd cmds /\ command_ m = command cmd /\ In (matchedPhrase m) (aliases cmd)) /\
  (forall a, action (parseComplexCommand input cmds) = Some a ->
   exists cmd, In cmd cmds /\ a = command cmd).
Proof.
  split.
  - intros m H. destruct (matchCommand_from _ _ _ _ H) as (cmd & alias & Hc & Ha & Hm).
    exists cmd. rewrite Hm. simpl. auto.
  - intros a. unfold parseComplexCommand.
    destruct (matchCommand (normalize input) cmds (65 # 100)) as [am|] eqn:E; [|discriminate].
    destruct (matchCommand_from _ _ _ _ E) as (cmd & alias & Hc & Ha & Hm).
    assert (Hcmd : command_ am = command cmd) by (rewrite Hm; reflexivity).
    destruct (1 <? length _)%nat; simpl; intros [= <-]; exists cmd; auto.
Qed.

(** ** Case and surrounding whitespace do not matter *)

(** X11.  The matchers see the input only through [trim(toLowerCase(input))]:
    lowercasing or trimming the input first changes none of the results of
    [matchCommand], [getSuggestions], [parseComplexCommand],
    [matchContactName] and [findBestMatch]; in particular [parseComplexCommand]
    gets from [matchCommand] on the normalized input the same answer as on
    the raw one. *)
Theorem matchers_ignore_case_and_padding (s : str) (cmds : list CommandDefinition) (t : Q)
  (n : Z) (options : list str) :
  (forall f, In f [toLowerCase; trim; normalize] ->
   matchCommand (f s) cmds t = matchCommand s cmds t /\
   getSuggestions (f s) cmds n = getSuggestions s cmds n /\
   parseComplexCommand (f s) cmds = parseComplexCommand s cmds /\
   matchContactName (f s) options t = matchContactName s options t /\
   findBestMatch (f s) options t = findBestMatch s options t).
Proof.
  intros f Hf.
  assert (Hn : normalize (f s) = normalize s).
  { destruct Hf as [<- | [<- | [<- | []]]];
      [apply normalize_lower | apply normalize_trim | apply normalize_idem]. }
  unfold matchCommand, getSuggestions, parseComplexCommand, matchContactName, findBestMatch.
  fold (normalize (f s)) (normalize s). rewrite !Hn. repeat split.
Qed.

Lemma matchers_ignore_case_and_padding_witness :
  In toLowerCase [toLowerCase; trim; normalize] /\
  (matchCommand (toLowerCase (S_ " End Call ")) EMERGENCY_COMMANDS (6 # 10) =
     matchCommand (S_ " End Call ") EMERGENCY_COMMANDS (6 # 10) /\
   getSuggestions (toLowerCase (S_ " End Call ")) EMERGENCY_COMMANDS 3 =
     getSuggestions (S_ " End Call ") EMERGENCY_COMMANDS 3 /\
   parseComplexCommand (toLowerCase (S_ " End Call ")) EMERGENCY_COMMANDS =
     parseComplexCommand (S_ " End Call ") EMERGENCY_COMMANDS /\
   matchContactName (toLowerCase (S_ " End Call ")) (map contact_name mockContacts) (6 # 10) =
     matchContactName (S_ " End Call ") (map contact_name mockContacts) (6 # 10) /\
   findBestMatch (toLowerCase (S_ " End Call ")) (map contact_name mockContacts) (6 # 10) =
     findBestMatch (S_ " End Call ") (map contact_name mockContacts) (6 # 10)).
Proof.
  split; [simpl; tauto|].
  apply (matchers_ignore_case_and_padding (S_ " End Call ") EMERGENCY_COMMANDS (6 # 10) 3
           (map contact_name mockContacts) toLowerCase).
  simpl. tauto.
Defined.

(** ** Ties in [findBestMatch] *)

Lemma sort_desc_head (l : list Scored) (x : Scored) (r : list Scored) :
  sort_desc l = x :: r ->
  exists pre post, l = pre ++ x :: post /\
    (forall y, In y pre -> s_score y < s_score x) /\
    (forall y, In y post -> s_score y <= s_score x).
Proof.
  revert x r. induction l as [|z l IH]; intros x r H; [discriminate|].
  simpl in H. pose proof (sort_desc_perm l) as Hp. pose proof (sort_desc_strongly l) as Hs.
  destruct (sort_desc l) as [|h r'] eqn:E.
  - simpl in H. injection H as <- _.
    apply Permutation_nil in Hp. subst l.
    exists [], []. repeat split; intros y [].
  - simpl in H. destruct (Qle_bool (s_score h) (s_score z)) eqn:Ehz.
    + injection H as <- _. exists [], l. split; [reflexivity|]. split; [intros y []|].
      intros y Hy. apply Qle_bool_iff in Ehz.
      apply (Permutation_in _ (Permutation_sym Hp)) in Hy. destruct Hy as [<- | Hy]; [exact Ehz|].
      inversion Hs as [|? ? _ Hfor]; subst.
      eapply Qle_trans; [exact (proj1 (Forall_forall _ _) Hfor y Hy) | exact Ehz].
    + injection H as <- _. destruct (IH h r' eq_refl) as (pre & post & -> & Hpre & Hpost).
      exists (z :: pre), post. split; [reflexivity|]. split; [|exact Hpost].
      intros y [<- | Hy]; [|apply Hpre, Hy].
      apply Qnot_le_lt. intros Hle. apply Qle_bool_iff in Hle. congruence.
Qed.

(** X12.  When [findBestMatch] returns an option, it is the first option, in
    the order given, among those of highest score: every option before it
    scores strictly less, none after it scores more, and its score reaches the
    threshold and is the one reported. *)
Theorem findBestMatch_first_of_best (input : str) (options : list str) (t : Q) (o : str)
  (H : bm_match (findBestMatch input options t) = Some o) :
  let sc x := similarityScore (trim (toLowerCase input)) (toLowerCase x) in
  exists pre post, options = pre ++ o :: post /\
    t <= sc o /\ bm_score (findBestMatch input options t) = sc o /\
    (forall x, In x pre -> sc x < sc o) /\ (forall x, In x post -> sc x <= sc o).
Proof.
  intros sc. revert H. unfold findBestMatch.
  destruct (sort_desc (score_options (trim (toLowerCase input)) options)) as [|b r] eqn:E;
    [discriminate|].
  destruct (Qle_bool t (s_score b)) eqn:Eb; [|discriminate].
  simpl. intros [= <-].
  destruct (sort_desc_head _ _ _ E) as (pre & post & Hl & Hpre & Hpost).
  unfold score_options in Hl. apply map_eq_app in Hl. destruct Hl as (opre & orest & -> & Hopre & Horest).
  apply map_eq_cons in Horest. destruct Horest as (o' & opost & -> & Ho' & Hopost).
  subst b. simpl. exists opre, opost. split; [reflexivity|].
  split; [apply Qle_bool_iff, Eb|]. split; [reflexivity|]. split.
  - intros x Hx. apply (Hpre {| item := x; s_score := sc x |}).
    rewrite <- Hopre. apply in_map_iff. exists x. auto.
  - intros x Hx. apply (Hpost {| item := x; s_score := sc x |}).
    rewrite <- Hopost. apply in_map_iff. exists x. auto.
Qed.

(** X12, instance: "cat" is as close to "bat" as to "hat"; the first wins. *)
Lemma findBestMatch_first_of_best_witness :
  bm_match (findBestMatch (S_ "cat") [S_ "bat"; S_ "hat"] (6 # 10)) = Some (S_ "bat") /\
  let sc x := similarityScore (trim (toLowerCase (S_ "cat"))) (toLowerCase x) in
  exists pre post, [S_ "bat"; S_ "hat"] = pre ++ S_ "bat" :: post /\
    6 # 10 <= sc (S_ "bat") /\
    bm_score (findBestMatch (S_ "cat") [S_ "bat"; S_ "hat"] (6 # 10)) = sc (S_ "bat") /\
    (forall x, In x pre -> sc x < sc (S_ "bat")) /\ (forall x, In x post -> sc x <= sc (S_ "bat")).
Proof.
  split; [vm_compute; reflexivity|].
  apply findBestMatch_first_of_best. vm_compute. reflexivity.
Defined.

(** ** Contact names *)

Lemma findBestMatch_some (input : str) (options : list str) (t : Q) (o : str) :
  bm_match (findBestMatch input options t) = Some o ->
  In o options /\ t <= bm_score (findBestMatch input options t).
Proof.
  unfold findBestMatch.
  pose proof (sort_desc_perm (score_options (trim (toLowerCase input)) options)) as Hp.
  destruct (sort_desc (score_options (trim (toLowerCase input)) options)) as [|b r];
    [discriminate|].
  destruct (Qle_bool t (s_score b)) eqn:Eb; [|discriminate].
  simpl. intros [= <-]. split; [|apply Qle_bool_iff, Eb].
  assert (Hb : In b (score_options (trim (toLowerCase input)) options))
    by (apply (Permutation_in _ Hp); left; reflexivity).
  unfold score_options in Hb. apply in_map_iff in Hb. destruct Hb as (x & <- & Hx). exact Hx.
Qed.

(** X13.  A name returned by [matchContactName] is one of the contact names
    given, with a confidence at or above the threshold; so on the emergency
    screen, where the names are those of [sortedContacts], the lookup
    [sortedContacts.find(c => c.name === nameMatch.name)] always finds a
    contact, the first one with that name. *)
Theorem matchContactName_name_listed (input : str) (cs : list Contact) (t : Q) (n : str)
  (H : name (matchContactName input (map contact_name cs) t) = Some n) :
  In n (map contact_name cs) /\ t <= cn_confidence (matchContactName input (map contact_name cs) t) /\
  exists c, find (fun c => str_eqb (contact_name c) n) cs = Some c /\ contact_name c = n.
Proof.
  unfold matchContactName in *. simpl in *.
  destruct (findBestMatch_some _ _ _ _ H) as [Hin Ht].
  split; [exact Hin|]. split; [exact Ht|].
  destruct (find (fun c => str_eqb (contact_name c) n) cs) as [c|] eqn:E.
  - exists c. split; [reflexivity|]. apply find_some in E as [_ E]. apply str_eqb_spec, E.
  - exfalso. apply in_map_iff in Hin. destruct Hin as (c & Hc & Hin).
    apply (find_none _ _ E) in Hin. rewrite Hc in Hin.
    assert (Ht' : str_eqb n n = true) by (apply str_eqb_spec; reflexivity). congruence.
Qed.

(** X13, instance: the full name "habimana bill" against the shipped contacts. *)
Lemma matchContactName_name_listed_witness :
  name (matchContactName (S_ "habimana bill") (map contact_name mockContacts) (6 # 10))
    = Some (S_ "HABIMANA Bill") /\
  In (S_ "HABIMANA Bill") (map contact_name mockContacts) /\
  6 # 10 <= cn_confidence (matchContactName (S_ "habimana bill") (map contact_name mockContacts) (6 # 10)) /\
  exists c, find (fun c => str_eqb (contact_name c) (S_ "HABIMANA Bill")) mockContacts = Some c
            /\ contact_name c = S_ "HABIMANA Bill".
Proof.
  split; [vm_compute; reflexivity|].
  apply matchContactName_name_listed. vm_compute. reflexivity.
Defined.

(** ** The screens' voice handlers *)

Lemma getSuggestions_length (input : str) (cmds : list CommandDefinition) (n : Z) :
  (0 <= n)%Z ->
  length (getSuggestions input cmds n) = Nat.min (Z.to_nat n) (length (flat_map aliases cmds)).
Proof.
  intros Hn. unfold getSuggestions. rewrite slice0_nonneg by exact Hn.
  rewrite length_map, length_firstn.
  rewrite (Permutation_length (sort_desc_perm _)).
  rewrite <- (suggestion_scores_items (normalize input) cmds), length_map. reflexivity.
Qed.

Lemma getSuggestions_three (input : str) :
  length (getSuggestions input GLOBAL_COMMANDS 3) = 3%nat /\
  length (getSuggestions input SCAN_COMMANDS 3) = 3%nat /\
  length (getSuggestions input EMERGENCY_COMMANDS 3) = 3%nat.
Proof.
  rewrite !getSuggestions_length by lia. vm_compute. auto.
Qed.

Lemma is_command_some (m : CommandMatch) (c : string) :
  is_command (Some m) c = str_eqb (command_ m) (S_ c).
Proof. reflexivity. Qed.

Lemma str_neq_at (k : nat) (x y : str) : nth_error x k <> nth_error y k -> x <> y.
Proof. intros H E. apply H. rewrite E. reflexivity. Qed.

Lemma Speak_neq (x y : str) : x <> y -> Speak x <> Speak y.
Proof. intros H E. injection E. exact H. Qed.

Lemma DashboardSpeak_neq (x y : str) : x <> y -> DashboardSpeak x <> DashboardSpeak y.
Proof. intros H E. injection E. exact H. Qed.

Lemma ScanSpeak_neq (x y : str) : x <> y -> ScanSpeak x <> ScanSpeak y.
Proof. intros H E. injection E. exact H. Qed.

Ltac str_neq :=
  first [ apply (str_neq_at 0); cbn; discriminate
        | apply (str_neq_at 2); cbn; discriminate
        | apply (str_neq_at 26); cbn; discriminate ].

Ltac split_ifs :=
  repeat match goal with
         | |- context [if ?b then _ else _] => destruct b
         | |- context [match ?o with Some _ => _ | None => _ end] => destruct o as [[]|]
         | |- context [match ?l with [] => _ | _ :: _ => _ end] => destruct l
         end.

(** X14.  On each of the three shipped catalogs [getSuggestions(command,
    catalog, 3)] returns exactly three suggestions, so the handlers' fallback
    help messages (the branch taken when it returns none) are dead code: the
    dashboard never says "Try saying: navigate, scan, or emergency.", the scan
    screen never says "Try saying: scan, text mode, object mode, or exit.",
    and the emergency screen never says "Say 'call' followed by a contact
    name, ...". *)
Theorem voice_fallback_messages_unreachable :
  (forall s, length (getSuggestions s GLOBAL_COMMANDS 3) = 3%nat /\
             length (getSuggestions s SCAN_COMMANDS 3) = 3%nat /\
             length (getSuggestions s EMERGENCY_COMMANDS 3) = 3%nat) /\
  (forall w s, dashboardVoiceCommand w s <>
     DashboardSpeak (S_ "I didn't understand that. " ++ S_ "Try saying: navigate, scan, or emergency.")) /\
  (forall w a s, scanVoiceCommand w a s <>
     ScanSpeak (S_ "I didn't understand that. "
                ++ S_ "Try saying: scan, text mode, object mode, or exit.")) /\
  (forall w st cs s, emergencyVoiceCommand w st cs s <>
     Speak (S_ "I didn't understand that. "
            ++ S_ "Say 'call' followed by a contact name, or 'call first' for nearest contact.")).
Proof.
  split; [exact getSuggestions_three|].
  split.
  { intros w s. unfold dashboardVoiceCommand. cbv zeta.
    destruct (getSuggestions_three s) as (-> & _ & _).
    replace ((0 <? 3)%nat) with true by reflexivity. cbv iota.
    destruct (matchCommand s GLOBAL_COMMANDS (6 # 10)) as [m|].
    - rewrite !is_command_some. unfold press. split_ifs; discriminate.
    - destruct w; [discriminate|]. apply DashboardSpeak_neq. str_neq. }
  split.
  { intros w a s. unfold scanVoiceCommand. cbv zeta.
    destruct (getSuggestions_three s) as (_ & -> & _).
    replace ((0 <? 3)%nat) with true by reflexivity. cbv iota.
    destruct (matchCommand s SCAN_COMMANDS (6 # 10)) as [m|].
    - rewrite !is_command_some. split_ifs; discriminate.
    - destruct w; [discriminate|]. apply ScanSpeak_neq. str_neq. }
  intros w st cs s. unfold emergencyVoiceCommand. cbv zeta.
  destruct (getSuggestions_three s) as (_ & _ & ->).
  replace ((0 <? 3)%nat) with true by reflexivity. cbv iota.
  destruct (matchCommand s EMERGENCY_COMMANDS (6 # 10)) as [m|];
    [rewrite !is_command_some|]; cbn [is_command];
  destruct (action (parseComplexCommand s EMERGENCY_COMMANDS));
  destruct (parameter (parseComplexCommand s EMERGENCY_COMMANDS)) as [[|x p]|];
  split_ifs;
  try discriminate; apply Speak_neq; str_neq.
Qed.

(** X15.  The emergency screen's voice handler only acts in the screen state
    that allows it: it selects a contact only while [Selecting], and only one
    of the contacts it was given; it ends a call only [InCall]; it quits only
    when neither in a call, calling nor sending the location; and on the web
    it never speaks. *)
Theorem emergencyVoiceCommand_guarded (w : bool) (st : EmergencyState) (cs : list Contact) (s : str) :
  (forall c, emergencyVoiceCommand w st cs s = SelectContact c -> st = Selecting /\ In c cs) /\
  (emergencyVoiceCommand w st cs s = EndCall -> st = InCall) /\
  (emergencyVoiceCommand w st cs s = Quit ->
     st <> InCall /\ st <> Calling /\ st <> SendingLocation) /\
  (w = true -> forall msg, emergencyVoiceCommand w st cs s <> Speak msg).
Proof.
  unfold emergencyVoiceCommand. cbv zeta.
  destruct st; cbn [EmergencyState_beq negb]; rewrite ?andb_false_r, ?andb_true_r;
  destruct (matchCommand s EMERGENCY_COMMANDS (6 # 10)) as [m|];
    cbn [is_command];
  destruct (action (parseComplexCommand s EMERGENCY_COMMANDS));
  destruct (parameter (parseComplexCommand s EMERGENCY_COMMANDS)) as [[|x p]|];
  repeat match goal with
         | |- context [if ?b then _ else _] => destruct b
         | |- context [match ?o with Some _ => _ | None => _ end] =>
             let E := fresh "E" in destruct o eqn:E
         | |- context [match ?l with [] => _ | _ :: _ => _ end] => destruct l
         end;
  repeat split; intros; subst; try discriminate; try congruence.
  all: match goal with H : SelectContact _ = SelectContact _ |- _ => injection H as <- end.
  all: first [ left; reflexivity
             | match goal with H : find _ _ = Some _ |- _ => exact (proj1 (find_some _ _ H)) end ].
Qed.




(** ** The speech manager *)

Definition speech_inv (st : SpeechManager) : Prop :=
  isSpeaking st = isProcessing st /\
  (isProcessing st = true <-> inFlight st <> None) /\
  (isProcessing st = false -> speechQueue st = []).

Lemma processQueue_inv (st : SpeechManager) :
  isSpeaking st = false -> inFlight st = None -> speech_inv (processQueue st).
Proof.
  intros Hs Hf. unfold processQueue, speech_inv.
  destruct (speechQueue st) as [|u rest]; cbn; rewrite ?Hs, ?Hf.
  - split; [reflexivity|]. split; [split; [discriminate | intros H; contradiction] | auto].
  - split; [reflexivity|]. split; [split; [discriminate | reflexivity] | discriminate].
Qed.

Lemma speechStep_inv (st : SpeechManager) (e : SpeechEvent) :
  speech_inv st -> speech_inv (speechStep st e).
Proof.
  intros Hinv. pose proof Hinv as (Hs & Hp & Hq). destruct e as [w t oc| | |cb|cb|cb|cbs| |]; cbn.
  - unfold speak. destruct w.
    + destruct oc; [|exact Hinv]. unfold speech_inv; cbn. auto.
    + cbn. destruct (isProcessing st) eqn:E.
      * unfold speech_inv; cbn. split; [exact Hs|]. split; [exact Hp | discriminate].
      * apply processQueue_inv; cbn.
        -- exact Hs.
        -- destruct (inFlight st) eqn:F; [|reflexivity]. exfalso.
           assert (false = true) by (apply Hp; discriminate). discriminate.
  - unfold speechDone. destruct (inFlight st); [apply processQueue_inv; reflexivity|].
    exact Hinv.
  - unfold speech_inv; cbn. split; [reflexivity|]. split; [|auto].
    split; [discriminate | intros H; contradiction].
  - exact Hinv.
  - exact Hinv.
  - exact Hinv.
  - unfold removeAllCallbacks. clear Hs Hp Hq. revert st Hinv.
    induction cbs as [|cb cbs IH]; intros st Hinv; [exact Hinv|].
    cbn. apply IH. exact Hinv.
  - exact Hinv.
  - exact Hinv.
Qed.

(** X18.  Whatever sequence of calls and engine replies the speech manager
    goes through from its initial state, [getIsSpeaking()] equals the
    [isProcessing] flag, the manager is processing exactly when an utterance
    awaits the engine's reply, and the queue is empty whenever it is not
    processing: no request is left waiting while it is idle. *)
Theorem speechManager_state_invariant (evs : list SpeechEvent) :
  let st := runSpeech initialSpeechManager evs in
  getIsSpeaking st = isProcessing st /\
  (isProcessing st = true <-> inFlight st <> None) /\
  (isProcessing st = false -> speechQueue st = []).
Proof.
  cbv zeta. unfold getIsSpeaking, runSpeech.
  assert (H0 : speech_inv initialSpeechManager).
  { split; [reflexivity|]. split; [split; [discriminate | intros H; contradiction] | auto]. }
  revert H0. generalize initialSpeechManager.
  induction evs as [|e evs IH]; intros st H; [exact H|].
  cbn. apply IH. apply speechStep_inv. exact H.
Qed.

Lemma spokenTexts_calls (st : SpeechManager) (l : list SpeechCall) :
  flat_map (fun c => match c with CSpeechSpeak t => [t] | _ => [] end) (calls st ++ l) =
  spokenTexts st ++ flat_map (fun c => match c with CSpeechSpeak t => [t] | _ => [] end) l.
Proof. apply flat_map_app. Qed.

Lemma completedCallbacks_calls (st : SpeechManager) (l : list SpeechCall) :
  flat_map (fun c => match c with COnComplete cb => [cb] | _ => [] end) (calls st ++ l) =
  completedCallbacks st ++ flat_map (fun c => match c with COnComplete cb => [cb] | _ => [] end) l.
Proof. apply flat_map_app. Qed.

Lemma flat_map_CCallback_texts (l : list nat) :
  flat_map (fun c => match c with CSpeechSpeak t => [t] | _ => [] end) (map CCallback l) = [].
Proof. induction l; [reflexivity|exact IHl]. Qed.

Lemma flat_map_CCallback_completed (l : list nat) :
  flat_map (fun c => match c with COnComplete cb => [cb] | _ => [] end) (map CCallback l) = [].
Proof. induction l; [reflexivity|exact IHl]. Qed.

Definition fifo_ok (st : SpeechManager) (texts : list str) (cbs : list nat) : Prop :=
  spokenTexts st ++ map q_text (speechQueue st) = texts /\
  completedCallbacks st ++ pendingCallbacks st = cbs.

Lemma processQueue_fifo (st : SpeechManager) texts cbs :
  inFlight st = None -> fifo_ok st texts cbs -> fifo_ok (processQueue st) texts cbs.
Proof.
  unfold fifo_ok, processQueue, pendingCallbacks. intros Hf [Ht Hc].
  rewrite Hf in Hc. cbn in Hc.
  destruct (speechQueue st) as [|u rest]; cbn - [flat_map].
  - rewrite Hf. split; assumption.
  - unfold spokenTexts, completedCallbacks in *. cbn - [flat_map].
    rewrite spokenTexts_calls, completedCallbacks_calls, !flat_map_app,
      flat_map_CCallback_texts, flat_map_CCallback_completed.
    cbn. rewrite <- Ht, <- Hc. rewrite !app_nil_r, <- !app_assoc. split; reflexivity.
Qed.

Lemma with_callbacks_fifo (starts ends : list nat) (st : SpeechManager) texts cbs :
  fifo_ok st texts cbs -> fifo_ok (with_callbacks starts ends st) texts cbs.
Proof. exact (fun H => H). Qed.

Lemma speechStep_fifo (st : SpeechManager) (e : SpeechEvent) texts cbs :
  speech_inv st -> e <> EStop -> fifo_ok st texts cbs ->
  fifo_ok (speechStep st e) (texts ++ requestedTexts [e]) (cbs ++ requestedCallbacks [e]).
Proof.
  intros (Hs & Hp & Hq) Hne Hok.
  destruct e as [w t oc| | |cb|cb|cb|cbs'| |]; cbn [speechStep requestedTexts requestedCallbacks flat_map];
    rewrite ?app_nil_r.
  - destruct w; cbn [app].
    + rewrite !app_nil_r. unfold speak. destruct oc; [|exact Hok].
      unfold fifo_ok, spokenTexts, completedCallbacks, pendingCallbacks in *. cbn - [flat_map].
      rewrite !flat_map_app in *. cbn. rewrite !app_nil_r. exact Hok.
    + assert (Hok' : fifo_ok (mkSpeechManager (isSpeaking st)
        (speechQueue st ++ [{| q_text := t; q_onComplete := oc |}])
        (onSpeechStartCallbacks st) (onSpeechEndCallbacks st) (isProcessing st)
        (inFlight st) (calls st)) (texts ++ [t]) (cbs ++ opt_list oc)).
      { destruct Hok as [Ht Hc]. unfold fifo_ok, spokenTexts, completedCallbacks, pendingCallbacks in *.
        cbn - [flat_map]. rewrite map_app, app_assoc, Ht. split; [reflexivity|].
        rewrite app_assoc, flat_map_app, app_assoc, Hc. destruct oc; reflexivity. }
      replace (cbs ++ match oc with Some cb => [cb] | None => [] end) with (cbs ++ opt_list oc)
        by (destruct oc; reflexivity).
      unfold speak. cbn [isProcessing]. destruct (isProcessing st) eqn:E; [exact Hok'|].
      apply processQueue_fifo; [|exact Hok']. cbn.
      destruct (inFlight st) eqn:F; [|reflexivity]. exfalso.
      assert (false = true) by (apply Hp; discriminate). discriminate.
  - unfold speechDone. destruct (inFlight st) as [u|] eqn:F; [|exact Hok].
    apply processQueue_fifo; [reflexivity|].
    destruct Hok as [Ht Hc].
    unfold fifo_ok, spokenTexts, completedCallbacks, pendingCallbacks in *. cbn - [flat_map].
    rewrite F in Hc. cbn - [flat_map] in Hc.
    rewrite !flat_map_app, flat_map_CCallback_texts, flat_map_CCallback_completed.
    split.
    + destruct (q_onComplete u); cbn; rewrite ?app_nil_r; exact Ht.
    + rewrite <- Hc. cbn [flat_map opt_list]. destruct (q_onComplete u); cbn [app]; rewrite ?app_nil_r, <- ?app_assoc.
      all: reflexivity.
  - contradiction.
  - exact Hok.
  - exact Hok.
  - exact Hok.
  - unfold removeAllCallbacks. clear Hne. revert st Hs Hp Hq Hok.
    induction cbs' as [|c cbs' IH]; intros st Hs Hp Hq Hok; [exact Hok|].
    cbn. apply IH; assumption.
  - exact Hok.
  - exact Hok.
Qed.

Lemma speech_inv_initial : speech_inv initialSpeechManager.
Proof. split; [reflexivity|]. split; [split; [discriminate | intros H; contradiction] | auto]. Qed.

Lemma requested_cons (e : SpeechEvent) (evs : list SpeechEvent) :
  requestedTexts (e :: evs) = requestedTexts [e] ++ requestedTexts evs /\
  requestedCallbacks (e :: evs) = requestedCallbacks [e] ++ requestedCallbacks evs.
Proof. unfold requestedTexts, requestedCallbacks. cbn. rewrite !app_nil_r. split; reflexivity. Qed.

(** X19.  As long as [stop()] is not called, the speech manager passes the
    texts of the native [speak] requests to [Speech.speak] in request order:
    the texts spoken so far followed by the queued ones are the requested
    texts.  Likewise the [onComplete] callbacks called so far, followed by
    those still owed (in flight, then queued), are the requested ones in
    order. *)
Theorem speechManager_fifo (evs : list SpeechEvent) :
  ~ In EStop evs ->
  let st := runSpeech initialSpeechManager evs in
  spokenTexts st ++ map q_text (speechQueue st) = requestedTexts evs /\
  completedCallbacks st ++ pendingCallbacks st = requestedCallbacks evs.
Proof.
  intros Hns. cbv zeta.
  change (fifo_ok (runSpeech initialSpeechManager evs) ([] ++ requestedTexts evs)
            ([] ++ requestedCallbacks evs)).
  assert (Hok : fifo_ok initialSpeechManager [] []) by (split; reflexivity).
  revert Hok. pose proof speech_inv_initial as Hinv. revert Hinv.
  generalize initialSpeechManager (@nil str) (@nil nat).
  induction evs as [|e evs IH]; intros st T C Hinv Hok.
  - cbn. rewrite !app_nil_r. exact Hok.
  - destruct (requested_cons e evs) as [-> ->]. rewrite !app_assoc.
    apply IH.
    + intros H. apply Hns. right. exact H.
    + apply speechStep_inv. exact Hinv.
    + apply speechStep_fifo; [exact Hinv | | exact Hok].
      intros ->. apply Hns. left. reflexivity.
Qed.

(** Two requests and one engine reply. *)
Lemma speechManager_fifo_witness :
  ~ In EStop [ESpeak false (S_ "Scanning") (Some 1%nat); ESpeak false (S_ "Done") None;
              ESpeechDone] /\
  let st := runSpeech initialSpeechManager
              [ESpeak false (S_ "Scanning") (Some 1%nat); ESpeak false (S_ "Done") None;
               ESpeechDone] in
  spokenTexts st ++ map q_text (speechQueue st) =
    requestedTexts [ESpeak false (S_ "Scanning") (Some 1%nat); ESpeak false (S_ "Done") None;
                    ESpeechDone] /\
  completedCallbacks st ++ pendingCallbacks st =
    requestedCallbacks [ESpeak false (S_ "Scanning") (Some 1%nat); ESpeak false (S_ "Done") None;
                        ESpeechDone].
Proof.
  assert (H : ~ In EStop [ESpeak false (S_ "Scanning") (Some 1%nat); ESpeak false (S_ "Done") None;
                          ESpeechDone])
    by (cbn; intros [E|[E|[E|[]]]]; discriminate).
  split; [exact H | apply (speechManager_fifo _ H)].
Defined.

Lemma filter_filter_andb {A} (p q : A -> bool) (l : list A) :
  filter p (filter q l) = filter (fun x => q x && p x) l.
Proof.
  induction l as [|x l IH]; [reflexivity|]. cbn.
  destruct (q x); cbn; [destruct (p x); cbn; rewrite IH; reflexivity | exact IH].
Qed.

(** X20.  Registering a callback and then removing it leaves the registry as
    removing it alone would: [removeCallback] drops every registration of the
    callback from both lists.  [removeAllCallbacks(cbs)] keeps, in order,
    exactly the callbacks not in [cbs], and touches neither the queue, the
    speaking flag nor anything already done. *)
Theorem speechManager_callback_registry (cb : nat) (cbs : list nat) (st : SpeechManager) :
  removeCallback cb (onSpeechStart cb st) = removeCallback cb st /\
  removeCallback cb (onSpeechEnd cb st) = removeCallback cb st /\
  onSpeechStartCallbacks (removeAllCallbacks cbs st) =
    filter (fun c => negb (existsb (Nat.eqb c) cbs)) (onSpeechStartCallbacks st) /\
  onSpeechEndCallbacks (removeAllCallbacks cbs st) =
    filter (fun c => negb (existsb (Nat.eqb c) cbs)) (onSpeechEndCallbacks st) /\
  (calls (removeAllCallbacks cbs st), speechQueue (removeAllCallbacks cbs st),
   isSpeaking (removeAllCallbacks cbs st)) = (calls st, speechQueue st, isSpeaking st).
Proof.
  split; [|split].
  - unfold removeCallback, onSpeechStart, with_callbacks. cbn.
    rewrite filter_app. cbn. rewrite Nat.eqb_refl, app_nil_r. reflexivity.
  - unfold removeCallback, onSpeechEnd, with_callbacks. cbn.
    rewrite filter_app. cbn. rewrite Nat.eqb_refl, app_nil_r. reflexivity.
  - unfold removeAllCallbacks. revert st.
    induction cbs as [|c cbs IH]; intros st.
    + cbn. rewrite !filter_true. auto.
    + cbn [fold_left]. destruct (IH (removeCallback c st)) as (H1 & H2 & H3).
      rewrite H1, H2, H3. cbn. rewrite !filter_filter_andb.
      split; [|split; [|reflexivity]]; apply filter_ext; intros x;
        rewrite Nat.eqb_sym; destruct (Nat.eqb c x); reflexivity.
Qed.
